(** * Meeting-minutes stream reconciliation and regeneration engine

    A shallow embedding of the engine's four components, each translated
    from the TypeScript source it lives in:

    - ChunkDecoder: [parseStreamChunk] and [extractTextFromChunks], in
      packages/web/src/utils/streamParser.ts;
    - MarkerExtractor: [parseMCPServers], [extractSystemPrompt] and the
      hook [usePromptGeneration] that drives them, the second document of
      packages/web/src/hooks/useIsMobile.ts, with the markers of
      packages/web/src/prompts/agentSystemPromptGenerator.ts;
    - TranscriptReconciler: the component of
      packages/web/src/components/MeetingMinutes/MeetingMinutesTranscription.tsx;
    - RegenerationScheduler: the component [MeetingMinutesGeneration], in
      unnamed/part_000.

    Around them: the recording sessions of the transcription panel, the
    diagram options of the generation panel, the panels of
    packages/web/src/pages/MeetingMinutesPage.tsx, the tags of
    packages/web/src/components/agentBuilder/AgentForm.tsx, and
    [sanitizeModelId] of packages/cdk/lib/utils/model-id-utils.ts.

    JavaScript strings are sequences of UTF-16 code units; they are modelled
    as lists of code units, so that [indexOf], [slice], [trim] and [split]
    read as they do in the ECMAScript specification. *)

From Stdlib Require Import QArith Qcanon Qround Ascii.
From stdpp Require Import base list numbers strings sorting.

Local Open Scope Z_scope.

(** ** JavaScript strings *)

Abbreviation jsstring := (list N).

(** A string literal of the source, as its code units (ASCII literals only). *)
Definition js (s : string) : jsstring :=
  N_of_ascii <$> String.list_ascii_of_string s.

(** The line feed, the separator of [split('\n')] and [join('\n')]. *)
Definition LF : N := 10%N.

(** [s.length] *)
Definition jslength (s : jsstring) : Z := Z.of_nat (length s).

(** Truthiness of a string value: only the empty string is falsy. *)
Definition truthy (s : jsstring) : bool :=
  match s with [] => false | _ :: _ => true end.

(** First position [pos + k] at which [needle] occurs in [s], scanning left
    to right; [pos] is the absolute position of the head of [s]. *)
Fixpoint find_from (needle s : jsstring) (pos : nat) : option nat :=
  if decide (needle `prefix_of` s) then Some pos
  else match s with
       | [] => None
       | _ :: s' => find_from needle s' (S pos)
       end.

(** The position a search starts from: [position] clamped to
    [0 .. s.length]. *)
Definition clamp (s : jsstring) (position : Z) : nat :=
  Z.to_nat (Z.min (Z.max position 0) (jslength s)).

(** [s.indexOf(needle, position)]: the result is [-1] when there is no
    occurrence at or after the clamped position. *)
Definition indexOf (s needle : jsstring) (position : Z) : Z :=
  let start := clamp s position in
  match find_from needle (drop start s) start with
  | Some i => Z.of_nat i
  | None => -1
  end.

(** Relative index of [slice]: negative indices count from the end, and
    everything is clamped to [0 .. len]. *)
Definition rel_index (len k : Z) : Z :=
  if decide (k < 0) then Z.max (len + k) 0 else Z.min k len.

(** [s.slice(start, end)] *)
Definition slice (s : jsstring) (start end_ : Z) : jsstring :=
  let from := rel_index (jslength s) start in
  let to := rel_index (jslength s) end_ in
  take (Z.to_nat (to - from)) (drop (Z.to_nat from) s).

(** [s.slice(start)]: the end defaults to [s.length]. *)
Definition slice_from (s : jsstring) (start : Z) : jsstring :=
  slice s start (jslength s).

(** *** Occurrences, to state what [indexOf] finds *)

(** [needle] occurs in [s] at [i], and nowhere at or after [p] before [i]. *)
Definition first_at (needle s : jsstring) (p i : nat) : Prop :=
  (p ≤ i ≤ length s)%nat ∧ needle `prefix_of` drop i s ∧
  ∀ j, (p ≤ j < i)%nat → ¬ needle `prefix_of` drop j s.

(** [needle] occurs nowhere in [s] at or after [p]. *)
Definition none_from (needle s : jsstring) (p : nat) : Prop :=
  ∀ j, (p ≤ j ≤ length s)%nat → ¬ needle `prefix_of` drop j s.

(** WhiteSpace and LineTerminator code points of ECMAScript, the
    characters [trim], [trimStart] and [trimEnd] strip. *)
Definition is_ws (c : N) : bool :=
  bool_decide (c ∈ [9; 10; 11; 12; 13; 32; 160; 5760; 8232; 8233; 8239;
                     8287; 12288; 65279]%N)
  || bool_decide (8192 ≤ c ≤ 8202)%N.

Fixpoint trimStart (s : jsstring) : jsstring :=
  match s with
  | [] => []
  | c :: s' => if is_ws c then trimStart s' else s
  end.

Definition trimEnd (s : jsstring) : jsstring :=
  reverse (trimStart (reverse s)).

Definition trim (s : jsstring) : jsstring := trimEnd (trimStart s).

(** [s.split(sep)] for a one-code-unit separator: always at least one
    piece; [n] separators give [n + 1] pieces. *)
Fixpoint split (sep : N) (s : jsstring) : list jsstring :=
  match s with
  | [] => [[]]
  | c :: s' =>
      if decide (c = sep) then [] :: split sep s'
      else match split sep s' with
           | piece :: pieces => (c :: piece) :: pieces
           | [] => [[c]]
           end
  end.

(** [pieces.join(sep)] *)
Fixpoint join (sep : jsstring) (pieces : list jsstring) : jsstring :=
  match pieces with
  | [] => []
  | [piece] => piece
  | piece :: rest => piece ++ sep ++ join sep rest
  end.

(** ** Marker sentinels (prompts/agentSystemPromptGenerator.ts) *)

Definition MCP_SERVERS_START_MARKER : jsstring := js "<SELECTED_MCP_SERVERS>".
Definition MCP_SERVERS_END_MARKER : jsstring := js "</SELECTED_MCP_SERVERS>".
Definition SYSTEM_PROMPT_START_MARKER : jsstring := js "<SYSTEM_PROMPT>".
Definition SYSTEM_PROMPT_END_MARKER : jsstring := js "</SYSTEM_PROMPT>".

(** ** MarkerExtractor (hooks/useIsMobile.ts, second document) *)

(** The list post-processing of the server field:
    [content.split('\n').map(line => line.trim()).filter(line => line.length > 0)] *)
Definition server_lines (content : jsstring) : list jsstring :=
  filter (λ line, 0 < jslength line) (trim <$> split LF content).

(** [parseMCPServers]: [None] is the source's [null]. *)
Definition parseMCPServers (rawOutput : jsstring) : option (list jsstring) :=
  let startIndex := indexOf rawOutput MCP_SERVERS_START_MARKER 0 in
  let endIndex := indexOf rawOutput MCP_SERVERS_END_MARKER 0 in
  if bool_decide (startIndex = -1) || bool_decide (endIndex = -1)
     || bool_decide (endIndex ≤ startIndex)
  then None
  else
    let content :=
      slice rawOutput (startIndex + jslength MCP_SERVERS_START_MARKER) endIndex in
    Some (server_lines content).

(** [extractSystemPrompt] *)
Definition extractSystemPrompt (rawOutput : jsstring) : jsstring :=
  let startIndex := indexOf rawOutput SYSTEM_PROMPT_START_MARKER 0 in
  if bool_decide (startIndex = -1) then []
  else
    let contentStart := startIndex + jslength SYSTEM_PROMPT_START_MARKER in
    let endIndex := indexOf rawOutput SYSTEM_PROMPT_END_MARKER contentStart in
    if bool_decide (endIndex = -1)
    then trimStart (slice_from rawOutput contentStart)
    else trim (slice rawOutput contentStart endIndex).

(** ** ChunkDecoder (utils/streamParser.ts) *)

(** Modelled from the spec: the [StreamingChunk] type is declared in the
    [generative-ai-use-cases] type package, outside the sources at hand.
    The spec's StreamEvent is [{ text: string, ...passthrough }], and
    [extractTextFromChunks] guards against an absent [text], so the field
    is optional here ([None] is [undefined]). *)
Record StreamingChunk := { chunk_text : option jsstring }.

(** What [JSON.parse] returns, as the code reads it. The cast
    [as StreamingChunk] checks nothing, so a payload is any JSON value:
    [null], on which reading [.text] throws a [TypeError], or a value that
    has members, read through its [text] member only. A [text] member that
    is a string is the [chunk_text]; one of another kind counts by what it
    adds to the joined text ([None] when the filter of
    [extractTextFromChunks] drops it). *)
Inductive Payload :=
| payload_null
| payload_value (chunk : StreamingChunk).

(** [JSON.parse(line) as StreamingChunk] is the platform's parser, not code
    of this repository: an interface, with [None] for a thrown
    [SyntaxError]. *)
Class JsonParse := JSON_parse : jsstring → option Payload.

(** [parseStreamChunk]: the [for] loop pushes every payload that parses and
    skips (after a console warning) every line that does not. *)
Definition parseStreamChunk `{JsonParse} (chunk : jsstring) : list Payload :=
  let lines := filter (λ line, truthy (trim line)) (split LF chunk) in
  foldl (λ results line,
           match JSON_parse line with
           | Some payload => results ++ [payload]
           | None => results
           end) [] lines.

(** [chunk.text && chunk.text.length > 0] *)
Definition has_text (chunk : StreamingChunk) : bool :=
  match chunk_text chunk with
  | Some t => truthy t && bool_decide (0 < jslength t)
  | None => false
  end.

(** [extractTextFromChunks] *)
Definition extractTextFromChunks (chunks : list StreamingChunk) : jsstring :=
  join [] ((λ chunk, default [] (chunk_text chunk)) <$> filter has_text chunks).

(** The payloads as the callback of [filter] reads them: [chunk.text]
    throws a [TypeError] on [null], wherever it stands in the array
    ([None]). *)
Definition read_payloads (payloads : list Payload) : option (list StreamingChunk) :=
  mapM (λ payload,
          match payload with
          | payload_null => None
          | payload_value chunk => Some chunk
          end) payloads.

(** The two lines of the loop body of [generate] that decode a chunk:
    [parseStreamChunk(chunkStr)], then [extractTextFromChunks(parsedChunks)];
    [None] when the latter throws. *)
Definition chunk_text_of `{JsonParse} (chunkStr : jsstring) : option jsstring :=
  extractTextFromChunks <$> read_payloads (parseStreamChunk chunkStr).

(** A parser for the lines [{"text":"..."}] whose text has no quote, no
    backslash and no control character: on these lines it returns what
    [JSON.parse] returns, and it rejects every other line. It serves to run
    the hook on concrete streams. *)
Definition text_object_open : jsstring := [123; 34]%N ++ js "text" ++ [34; 58; 34]%N.
Definition text_object_close : jsstring := [34; 125]%N.

Definition plain_char (c : N) : bool :=
  bool_decide (32 ≤ c)%N && negb (bool_decide (c = 34%N)) && negb (bool_decide (c = 92%N)).

Definition parse_text_object (line : jsstring) : option Payload :=
  let n := length text_object_open in
  let m := length text_object_close in
  let body := take (length line - n - m) (drop n line) in
  if bool_decide (line = text_object_open ++ body ++ text_object_close)
     && forallb plain_char body
  then Some (payload_value {| chunk_text := Some body |})
  else None.

(** The same, with the line [null], which [JSON.parse] reads as the value
    [null]. *)
Definition parse_text_or_null (line : jsstring) : option Payload :=
  if bool_decide (line = js "null") then Some payload_null else parse_text_object line.

(** The line [{"text":"<body>"}]. *)
Definition text_object (body : jsstring) : jsstring :=
  text_object_open ++ body ++ text_object_close.

(** ** Prompt generation hook (hooks/useIsMobile.ts, second document) *)

(** A thrown value: an [Error] with its [name], or anything else. *)
Inductive Thrown :=
| ThrownError (name : jsstring)
| ThrownOther.

(** The hook's React state and refs. They are shared by every invocation
    of [generate], [cancel] and [reset]. [AbortController] objects live in
    [controllers] (the [signal.aborted] flag of each one allocated so far)
    and [abortControllerRef] holds a reference to one of them, or [None]
    for [null]. *)
Record Hook := {
  generatedPrompt : jsstring;
  suggestedMCPServers : list jsstring;
  isGenerating : bool;
  error : option Thrown;
  abortControllerRef : option nat;
  mcpServersParsedRef : bool;
  controllers : list bool;
}.

Definition setGeneratedPrompt (v : jsstring) (h : Hook) : Hook :=
  {| generatedPrompt := v; suggestedMCPServers := suggestedMCPServers h;
     isGenerating := isGenerating h; error := error h;
     abortControllerRef := abortControllerRef h;
     mcpServersParsedRef := mcpServersParsedRef h; controllers := controllers h |}.

Definition setSuggestedMCPServers (v : list jsstring) (h : Hook) : Hook :=
  {| generatedPrompt := generatedPrompt h; suggestedMCPServers := v;
     isGenerating := isGenerating h; error := error h;
     abortControllerRef := abortControllerRef h;
     mcpServersParsedRef := mcpServersParsedRef h; controllers := controllers h |}.

Definition setIsGenerating (v : bool) (h : Hook) : Hook :=
  {| generatedPrompt := generatedPrompt h; suggestedMCPServers := suggestedMCPServers h;
     isGenerating := v; error := error h;
     abortControllerRef := abortControllerRef h;
     mcpServersParsedRef := mcpServersParsedRef h; controllers := controllers h |}.

Definition setError (v : option Thrown) (h : Hook) : Hook :=
  {| generatedPrompt := generatedPrompt h; suggestedMCPServers := suggestedMCPServers h;
     isGenerating := isGenerating h; error := v;
     abortControllerRef := abortControllerRef h;
     mcpServersParsedRef := mcpServersParsedRef h; controllers := controllers h |}.

Definition set_abortControllerRef (v : option nat) (h : Hook) : Hook :=
  {| generatedPrompt := generatedPrompt h; suggestedMCPServers := suggestedMCPServers h;
     isGenerating := isGenerating h; error := error h;
     abortControllerRef := v;
     mcpServersParsedRef := mcpServersParsedRef h; controllers := controllers h |}.

Definition set_mcpServersParsedRef (v : bool) (h : Hook) : Hook :=
  {| generatedPrompt := generatedPrompt h; suggestedMCPServers := suggestedMCPServers h;
     isGenerating := isGenerating h; error := error h;
     abortControllerRef := abortControllerRef h;
     mcpServersParsedRef := v; controllers := controllers h |}.

Definition set_controllers (v : list bool) (h : Hook) : Hook :=
  {| generatedPrompt := generatedPrompt h; suggestedMCPServers := suggestedMCPServers h;
     isGenerating := isGenerating h; error := error h;
     abortControllerRef := abortControllerRef h;
     mcpServersParsedRef := mcpServersParsedRef h; controllers := v |}.

(** The hook as first rendered: the [useState] and [useRef] initial values. *)
Definition initial_hook : Hook :=
  {| generatedPrompt := []; suggestedMCPServers := []; isGenerating := false;
     error := None; abortControllerRef := None; mcpServersParsedRef := false;
     controllers := [] |}.

(** The synchronous head of [generate]: the state is reset and a fresh
    [AbortController] is allocated and stored in the ref. *)
Definition generate_begin (h : Hook) : Hook :=
  set_abortControllerRef (Some (length (controllers h)))
    (set_controllers (controllers h ++ [false])
       (set_mcpServersParsedRef false
          (setSuggestedMCPServers []
             (setGeneratedPrompt [] (setError None (setIsGenerating true h)))))).

(** [abortControllerRef.current?.signal.aborted], read from the ref at the
    moment of the check; [undefined] (a null ref) is falsy. *)
Definition signal_aborted (h : Hook) : bool :=
  match abortControllerRef h with
  | Some c => default false (controllers h !! c)
  | None => false
  end.

(** The [if (text) { ... }] block of the loop body: the buffer grows and
    both fields are re-extracted. The server list is parsed until it first
    succeeds; the system prompt is extracted on every chunk and stored when
    it is non-empty. *)
Definition consume_text (h : Hook) (rawOutput text : jsstring) : Hook * jsstring :=
  if truthy text then
    let rawOutput := rawOutput ++ text in
    let h :=
      if mcpServersParsedRef h then h
      else match parseMCPServers rawOutput with
           | Some servers =>
               set_mcpServersParsedRef true (setSuggestedMCPServers servers h)
           | None => h
           end in
    let systemPrompt := extractSystemPrompt rawOutput in
    let h := if truthy systemPrompt then setGeneratedPrompt systemPrompt h else h in
    (h, rawOutput)
  else (h, rawOutput).

(** The [finally] block. *)
Definition generate_finally (h : Hook) : Hook :=
  set_abortControllerRef None (setIsGenerating false h).

(** The [catch] block: [AbortError]s and non-[Error] values are swallowed. *)
Definition generate_catch (err : Thrown) (h : Hook) : Hook :=
  match err with
  | ThrownError name =>
      if bool_decide (name ≠ js "AbortError") then setError (Some err) h else h
  | ThrownOther => h
  end.

(** [cancel] *)
Definition cancel (h : Hook) : Hook :=
  let h :=
    match abortControllerRef h with
    | Some c => set_controllers (<[c := true]> (controllers h)) h
    | None => h
    end in
  setIsGenerating false h.

(** [reset] *)
Definition reset (h : Hook) : Hook :=
  set_mcpServersParsedRef false
    (setIsGenerating false
       (setError None (setSuggestedMCPServers [] (setGeneratedPrompt [] h)))).

(** One invocation of [generate]: its local [rawOutput] and, once the
    promise has settled, the value it resolved to. *)
Record Call := {
  rawOutput : jsstring;
  returned : option jsstring;
}.

Record World := {
  hook : Hook;
  calls : list Call;
}.

Definition initial_world : World := {| hook := initial_hook; calls := [] |}.

(** What can happen to the hook: the consumer calls [generate], [cancel] or
    [reset]; the stream of invocation [call] yields a chunk, ends, or
    throws. *)
Inductive Event :=
| Generate
| Cancel
| ResetState
| Chunk (call : nat) (chunk : jsstring)
| StreamEnd (call : nat)
| StreamThrow (call : nat) (err : Thrown).

(** Leaving the loop of an invocation: [finally], then the return value
    [extractSystemPrompt(rawOutput)]. *)
Definition settle (k : nat) (c : Call) (h : Hook) (w : World) : World :=
  {| hook := generate_finally h;
     calls := <[k := {| rawOutput := rawOutput c;
                        returned := Some (extractSystemPrompt (rawOutput c)) |}]> (calls w) |}.

(** The [TypeError] that reading a member of [null] throws. *)
Definition TypeError : Thrown := ThrownError (js "TypeError").

(** One turn of the event loop. A settled invocation consumes nothing more:
    [break] closes the iterator, whatever the transport still emits. A
    chunk whose decoding throws leaves the loop through [catch], before the
    buffer is touched. *)
Definition step `{JsonParse} (w : World) (ev : Event) : World :=
  match ev with
  | Generate =>
      {| hook := generate_begin (hook w);
         calls := calls w ++ [{| rawOutput := []; returned := None |}] |}
  | Cancel => {| hook := cancel (hook w); calls := calls w |}
  | ResetState => {| hook := reset (hook w); calls := calls w |}
  | Chunk k chunk =>
      match calls w !! k with
      | Some c =>
          if returned c is Some _ then w
          else if signal_aborted (hook w) then settle k c (hook w) w
          else
            match chunk_text_of chunk with
            | Some text =>
                let '(h, raw) := consume_text (hook w) (rawOutput c) text in
                {| hook := h;
                   calls := <[k := {| rawOutput := raw; returned := None |}]> (calls w) |}
            | None => settle k c (generate_catch TypeError (hook w)) w
            end
      | None => w
      end
  | StreamEnd k =>
      match calls w !! k with
      | Some c => if returned c is Some _ then w else settle k c (hook w) w
      | None => w
      end
  | StreamThrow k err =>
      match calls w !! k with
      | Some c => if returned c is Some _ then w else settle k c (generate_catch err (hook w)) w
      | None => w
      end
  end.

Definition run `{JsonParse} (w : World) (evs : list Event) : World :=
  foldl step w evs.

(** Feeding one invocation the texts of its chunks, in order: [generate]
    is called on the hook [h0], and the loop body runs on each text. The
    result is the hook and the accumulated buffer. *)
Definition feed (h0 : Hook) (texts : list jsstring) : Hook * jsstring :=
  foldl (λ '(h, raw) text, consume_text h raw text)
        (generate_begin h0, []) texts.

(** The MarkerField states of the data model, as the code's branches
    decide them. *)
Inductive FieldState := absent | open | closed.

Definition systemPromptState (rawOutput : jsstring) : FieldState :=
  let startIndex := indexOf rawOutput SYSTEM_PROMPT_START_MARKER 0 in
  if bool_decide (startIndex = -1) then absent
  else if bool_decide
            (indexOf rawOutput SYSTEM_PROMPT_END_MARKER
               (startIndex + jslength SYSTEM_PROMPT_START_MARKER) = -1)
       then open else closed.

(** The loop body of one invocation, folded over the texts. *)
Definition feed_from (h : Hook) (raw : jsstring) (texts : list jsstring) : Hook * jsstring :=
  foldl (λ '(h, raw) text, consume_text h raw text) (h, raw) texts.

(** What the hook holds of the server list, against the buffer. *)
Definition servers_inv (h : Hook) (raw : jsstring) : Prop :=
  if mcpServersParsedRef h
  then parseMCPServers raw = Some (suggestedMCPServers h)
  else parseMCPServers raw = None ∧ suggestedMCPServers h = [].

(** What the hook holds of the system prompt, against the buffer. *)
Definition prompt_inv (h : Hook) (raw : jsstring) : Prop :=
  extractSystemPrompt raw ≠ [] ∨ systemPromptState raw ≠ closed →
  generatedPrompt h = extractSystemPrompt raw.

(** ** TranscriptReconciler (components/MeetingMinutes/MeetingMinutesTranscription.tsx) *)

Inductive Source := microphone | screen.

#[global] Instance Source_eq_dec : EqDecision Source.
Proof. solve_decision. Defined.

(** Modelled from the spec: the [Transcript] type is declared in the
    [generative-ai-use-cases] type package. A piece is [{ text, speakerTag? }];
    the code reads it as [transcript] and the optional [speakerLabel]. *)
Record Transcript := {
  speakerLabel : option jsstring;
  transcript : jsstring;
}.

(** Times are JavaScript numbers. Every finite double is a rational, and
    on finite doubles the sign of [a - b] is the sign of the exact
    difference, so the comparator below is exact on [Qc]. *)
Record TranscriptionSegment := {
  resultId : jsstring;
  source : Source;
  startTime : Qc;
  endTime : Qc;
  isPartial : bool;
  transcripts : list Transcript;
  sessionId : Z;
}.

(** The key of the [findIndex] predicate in [updateTranscriptionSegments]. *)
Definition same_key (a b : TranscriptionSegment) : Prop :=
  resultId a = resultId b ∧ source a = source b.

#[global] Instance same_key_dec a b : Decision (same_key a b).
Proof. unfold same_key. apply _. Defined.

Definition segment_key (seg : TranscriptionSegment) : jsstring * Source :=
  (resultId seg, source seg).

(** [updateTranscriptionSegments]: the updater passed to
    [setTranscriptionSegments]. [findIndex] gives the first entry with the
    key of [newSegment]; [-1] is [None]. *)
Definition updateTranscriptionSegments (newSegment : TranscriptionSegment)
    (prev : list TranscriptionSegment) : list TranscriptionSegment :=
  match list_find (λ seg, same_key seg newSegment) prev with
  | Some (existingIndex, _) => <[existingIndex := newSegment]> prev
  | None => prev ++ [newSegment]
  end.

(** The merged collection after a sequence of upserts, from the empty
    collection the component starts with. *)
Definition upserts (updates : list TranscriptionSegment) : list TranscriptionSegment :=
  foldl (λ prev newSegment, updateTranscriptionSegments newSegment prev) [] updates.

(** The comparator of both [sort] calls. *)
Definition compareSegments (a b : TranscriptionSegment) : Qc :=
  if decide (sessionId a ≠ sessionId b)
  then Qc_of_Z (sessionId a - sessionId b)
  else (startTime a - startTime b)%Qc.

(** The order the comparator stands for: by [sessionId], then by
    [startTime]. *)
Definition segment_le (a b : TranscriptionSegment) : Prop :=
  sessionId a < sessionId b ∨
  (sessionId a = sessionId b ∧ (startTime a ≤ startTime b)%Qc).

(** [x] is not placed after [y]: the comparator does not return a positive
    number on [(x, y)]. *)
Definition not_after {A} (comparefn : A → A → Qc) (x y : A) : Prop :=
  ¬ (0 < comparefn x y)%Qc.

(** [Array.prototype.sort(comparefn)] is specified to be stable and to
    order by the comparator's sign. For a consistent comparator that fixes
    the result; this insertion sort computes it: an element goes before the
    first later element it does not compare greater than. *)
Fixpoint sort_insert {A} (comparefn : A → A → Qc) (x : A) (l : list A) : list A :=
  match l with
  | [] => [x]
  | y :: l' =>
      if decide (0 < comparefn x y)%Qc then y :: sort_insert comparefn x l'
      else x :: l
  end.

Definition array_sort {A} (comparefn : A → A → Qc) (l : list A) : list A :=
  foldr (sort_insert comparefn) [] l.

(** [[...transcriptionSegments].sort(...)], the sequence both the text and
    the list view are rendered from. *)
Definition sortedSegments (segments : list TranscriptionSegment)
  : list TranscriptionSegment :=
  array_sort compareSegments segments.

(** The list view maps each sorted segment to its element, preceded by a
    session boundary when [isNewSession]. *)
Fixpoint with_boundaries (prev : option TranscriptionSegment)
    (sorted : list TranscriptionSegment) : list (bool * TranscriptionSegment) :=
  match sorted with
  | [] => []
  | segment :: rest =>
      let isNewSession :=
        match prev with
        | Some prevSegment => bool_decide (sessionId segment ≠ sessionId prevSegment)
        | None => false
        end in
      (isNewSession, segment) :: with_boundaries (Some segment) rest
  end.

Definition renderedSegments (segments : list TranscriptionSegment)
  : list (bool * TranscriptionSegment) :=
  with_boundaries None (sortedSegments segments).

(** Times are doubles, and two operations of [formatTime] are not exact
    on them: the quotient [a / b], which is rounded to the nearest double,
    and [n.toString()] on a whole number beyond the safe integers, which
    prints the shortest digits that identify the double and turns to
    exponent notation from 1e21 on. They are the platform's, not code of
    this repository: an interface, on the rationals that the doubles
    are. *)
Class NumberOps := {
  number_div : Qc → Qc → Qc;
  large_toString : Z → jsstring;
}.

(** Decimal digits of [Number.prototype.toString] on an integer. *)
Fixpoint digits (d : Decimal.uint) : jsstring :=
  match d with
  | Decimal.Nil => []
  | Decimal.D0 d => 48%N :: digits d
  | Decimal.D1 d => 49%N :: digits d
  | Decimal.D2 d => 50%N :: digits d
  | Decimal.D3 d => 51%N :: digits d
  | Decimal.D4 d => 52%N :: digits d
  | Decimal.D5 d => 53%N :: digits d
  | Decimal.D6 d => 54%N :: digits d
  | Decimal.D7 d => 55%N :: digits d
  | Decimal.D8 d => 56%N :: digits d
  | Decimal.D9 d => 57%N :: digits d
  end.

Definition integer_toString (n : Z) : jsstring :=
  match n with
  | Z0 => [48%N]
  | Zpos p => digits (Pos.to_uint p)
  | Zneg p => 45%N :: digits (Pos.to_uint p)
  end.

(** [n.toString()] of a whole number: its decimal digits when it is a safe
    integer. *)
Definition number_toString `{NumberOps} (n : Z) : jsstring :=
  if bool_decide (Z.abs n < 2 ^ 53) then integer_toString n else large_toString n.

(** [s.padStart(2, '0')] *)
Definition padStart2 (s : jsstring) : jsstring :=
  replicate (2 - length s) 48%N ++ s.

(** The integer part of a rational, rounding towards zero. *)
Definition Qtrunc (x : Q) : Z := Z.quot (Qnum x) (Zpos (Qden x)).

(** The remainder operator [a % b]: the sign follows the dividend. On
    doubles it is exact (the remainder of two doubles is a double). *)
Definition js_rem (a b : Qc) : Qc := (a - b * Qc_of_Z (Qtrunc (a / b)%Qc))%Qc.

(** [formatTime]: [Math.floor(seconds / 60)] and [Math.floor(seconds % 60)],
    each printed and padded. [Math.floor] is exact. *)
Definition formatTime `{NumberOps} (seconds : Qc) : jsstring :=
  let mins := Qfloor (number_div seconds (Qc_of_Z 60)) in
  let secs := Qfloor (js_rem seconds (Qc_of_Z 60)) in
  padStart2 (number_toString mins) ++ js ":" ++ padStart2 (number_toString secs).

(** Exact quotients, and plain digits throughout. On times as small as
    those of the example segments the doubles give the same. It serves to
    run the text on concrete segments. *)
Definition exact_numbers : NumberOps :=
  {| number_div := Qcdiv; large_toString := integer_toString |}.

(** One line per transcript of the segment. [speakerMapping] is the object
    built from the speakers setting; a missing or empty entry falls back to
    the raw label. *)
Definition render_line `{NumberOps} (speakerMapping : jsstring → option jsstring)
    (segment : TranscriptionSegment) (t : Transcript) : jsstring :=
  let timeStr := js "[" ++ formatTime (startTime segment) ++ js "]" in
  let partialIndicator := if isPartial segment then js " (...)" else [] in
  let label :=
    match speakerLabel t with
    | Some l =>
        if truthy l then
          (match speakerMapping l with
           | Some name => if truthy name then name else l
           | None => l
           end) ++ js ": "
        else []
    | None => []
    end in
  timeStr ++ js " " ++ label ++ transcript t ++ partialIndicator.

(** [transcriptionText] *)
Definition transcriptionText `{NumberOps} (speakerMapping : jsstring → option jsstring)
    (segments : list TranscriptionSegment) : jsstring :=
  join [LF]
    ((λ segment, join [LF] (render_line speakerMapping segment <$> transcripts segment))
       <$> sortedSegments segments).

(** Modelled from the spec: the transcription source hooks [useMicrophone]
    and [useScreenAudio] are not among the sources at hand. Each exposes
    [stop()], [clearBuffers()] and the segments received so far, the latest
    last, shaped as a segment without [sessionId]. *)
Record RawSegment := {
  raw_resultId : jsstring;
  raw_startTime : Qc;
  raw_endTime : Qc;
  raw_isPartial : bool;
  raw_transcripts : list Transcript;
}.

Record SourceHook := {
  recording : bool;
  rawTranscripts : list RawSegment;
}.

(** Modelled from the spec: [stop()] halts acquisition. *)
Definition stopTranscription (s : SourceHook) : SourceHook :=
  {| recording := false; rawTranscripts := rawTranscripts s |}.

(** Modelled from the spec: [clearBuffers()] empties the source's buffer. *)
Definition clearTranscripts (s : SourceHook) : SourceHook :=
  {| recording := recording s; rawTranscripts := [] |}.

(** The component's state, with the state of the two source hooks. *)
Record Transcription := {
  transcriptionSegments : list TranscriptionSegment;
  currentSessionId : Z;
  enableScreenAudio : bool;
  mic : SourceHook;
  screenAudio : SourceHook;
}.

Definition initial_transcription : Transcription :=
  {| transcriptionSegments := []; currentSessionId := 0; enableScreenAudio := false;
     mic := {| recording := false; rawTranscripts := [] |};
     screenAudio := {| recording := false; rawTranscripts := [] |} |}.

Definition to_segment (src : Source) (currentSessionId : Z) (latestSegment : RawSegment)
  : TranscriptionSegment :=
  {| resultId := raw_resultId latestSegment; source := src;
     startTime := raw_startTime latestSegment; endTime := raw_endTime latestSegment;
     isPartial := raw_isPartial latestSegment;
     transcripts := raw_transcripts latestSegment;
     sessionId := currentSessionId |}.

Definition setTranscriptionSegments
    (f : list TranscriptionSegment → list TranscriptionSegment) (st : Transcription)
  : Transcription :=
  {| transcriptionSegments := f (transcriptionSegments st);
     currentSessionId := currentSessionId st;
     enableScreenAudio := enableScreenAudio st;
     mic := mic st; screenAudio := screenAudio st |}.

(** The effect "Process microphone raw transcripts". *)
Definition processMicrophone (st : Transcription) : Transcription :=
  match last (rawTranscripts (mic st)) with
  | Some latestSegment =>
      setTranscriptionSegments
        (updateTranscriptionSegments
           (to_segment microphone (currentSessionId st) latestSegment)) st
  | None => st
  end.

(** The effect "Process screen audio raw transcripts". *)
Definition processScreen (st : Transcription) : Transcription :=
  if enableScreenAudio st then
    match last (rawTranscripts (screenAudio st)) with
    | Some latestSegment =>
        setTranscriptionSegments
          (updateTranscriptionSegments
             (to_segment screen (currentSessionId st) latestSegment)) st
    | None => st
    end
  else st.

(** [handleClear] *)
Definition handleClear (st : Transcription) : Transcription :=
  {| transcriptionSegments := [];
     currentSessionId := 0;
     enableScreenAudio := enableScreenAudio st;
     mic := clearTranscripts (stopTranscription (mic st));
     screenAudio := clearTranscripts (stopTranscription (screenAudio st)) |}.

(** [hasTranscriptText] of the transcription panel. *)
Definition panelHasTranscriptText `{NumberOps} (speakerMapping : jsstring → option jsstring)
    (st : Transcription) : bool :=
  bool_decide (trim (transcriptionText speakerMapping (transcriptionSegments st)) ≠ []).

(** The spec's scenario: a partial segment, then the final segment of the
    same utterance from the same source. *)
Definition r1_partial : TranscriptionSegment :=
  {| resultId := js "r1"; source := microphone; startTime := Qc_of_Z 0; endTime := Qc_of_Z 1;
     isPartial := true;
     transcripts := [{| speakerLabel := None; transcript := js "hel" |}];
     sessionId := 0 |}.

Definition r1_final : TranscriptionSegment :=
  {| resultId := js "r1"; source := microphone; startTime := Qc_of_Z 0; endTime := Qc_of_Z 2;
     isPartial := false;
     transcripts := [{| speakerLabel := None; transcript := js "hello" |}];
     sessionId := 0 |}.

(** The spec's scenario: session 0 at 5 s, entered after session 1 at 1 s. *)
Definition later_session : TranscriptionSegment :=
  {| resultId := js "r2"; source := screen; startTime := Qc_of_Z 1; endTime := Qc_of_Z 2;
     isPartial := false;
     transcripts := [{| speakerLabel := None; transcript := js "second" |}];
     sessionId := 1 |}.

Definition earlier_session : TranscriptionSegment :=
  {| resultId := js "r1"; source := microphone; startTime := Qc_of_Z 5; endTime := Qc_of_Z 6;
     isPartial := false;
     transcripts := [{| speakerLabel := None; transcript := js "first" |}];
     sessionId := 0 |}.

(** ** RegenerationScheduler (unnamed/part_000, MeetingMinutesGeneration) *)

Inductive Style :=
| summary | detail | faq | transcription | diagram | newspaper | whiteboard | custom.

#[global] Instance Style_eq_dec : EqDecision Style.
Proof. solve_decision. Defined.

(** What a handler, an effect or a callback does besides updating the
    state: a call of [generateMinutes], the error toast of the custom
    prompt, and the two toasts of the status callback. *)
Inductive Action :=
| CallGenerateMinutes (transcript : jsstring)
| ToastError
| ToastGenerationSuccess
| ToastGenerationError.

#[global] Instance Action_eq_dec : EqDecision Action.
Proof. solve_decision. Defined.

(** The component's state, refs and props. [countdownIntervalRef] holds the
    running interval, if any, with the [totalSeconds] its callback closed
    over; [minutesLoading] is the [loading] flag of [useMeetingMinutes]. *)
Record Minutes := {
  transcriptText : jsstring;
  shouldGenerateRef : bool;
  countdownIntervalRef : option Z;
  minutesStyle : Style;
  customPrompt : jsstring;
  autoGenerate : bool;
  generationFrequency : Z;
  countdownSeconds : Z;
  minutesLoading : bool;
}.

Definition initial_minutes : Minutes :=
  {| transcriptText := []; shouldGenerateRef := false; countdownIntervalRef := None;
     minutesStyle := summary; customPrompt := []; autoGenerate := false;
     generationFrequency := 5; countdownSeconds := 0; minutesLoading := false |}.

Definition set_transcriptText (v : jsstring) (st : Minutes) : Minutes :=
  {| transcriptText := v; shouldGenerateRef := shouldGenerateRef st;
     countdownIntervalRef := countdownIntervalRef st; minutesStyle := minutesStyle st;
     customPrompt := customPrompt st; autoGenerate := autoGenerate st;
     generationFrequency := generationFrequency st;
     countdownSeconds := countdownSeconds st; minutesLoading := minutesLoading st |}.

Definition set_shouldGenerateRef (v : bool) (st : Minutes) : Minutes :=
  {| transcriptText := transcriptText st; shouldGenerateRef := v;
     countdownIntervalRef := countdownIntervalRef st; minutesStyle := minutesStyle st;
     customPrompt := customPrompt st; autoGenerate := autoGenerate st;
     generationFrequency := generationFrequency st;
     countdownSeconds := countdownSeconds st; minutesLoading := minutesLoading st |}.

Definition set_countdownIntervalRef (v : option Z) (st : Minutes) : Minutes :=
  {| transcriptText := transcriptText st; shouldGenerateRef := shouldGenerateRef st;
     countdownIntervalRef := v; minutesStyle := minutesStyle st;
     customPrompt := customPrompt st; autoGenerate := autoGenerate st;
     generationFrequency := generationFrequency st;
     countdownSeconds := countdownSeconds st; minutesLoading := minutesLoading st |}.

Definition setMinutesStyle (v : Style) (st : Minutes) : Minutes :=
  {| transcriptText := transcriptText st; shouldGenerateRef := shouldGenerateRef st;
     countdownIntervalRef := countdownIntervalRef st; minutesStyle := v;
     customPrompt := customPrompt st; autoGenerate := autoGenerate st;
     generationFrequency := generationFrequency st;
     countdownSeconds := countdownSeconds st; minutesLoading := minutesLoading st |}.

Definition setCustomPrompt (v : jsstring) (st : Minutes) : Minutes :=
  {| transcriptText := transcriptText st; shouldGenerateRef := shouldGenerateRef st;
     countdownIntervalRef := countdownIntervalRef st; minutesStyle := minutesStyle st;
     customPrompt := v; autoGenerate := autoGenerate st;
     generationFrequency := generationFrequency st;
     countdownSeconds := countdownSeconds st; minutesLoading := minutesLoading st |}.

Definition setAutoGenerate (v : bool) (st : Minutes) : Minutes :=
  {| transcriptText := transcriptText st; shouldGenerateRef := shouldGenerateRef st;
     countdownIntervalRef := countdownIntervalRef st; minutesStyle := minutesStyle st;
     customPrompt := customPrompt st; autoGenerate := v;
     generationFrequency := generationFrequency st;
     countdownSeconds := countdownSeconds st; minutesLoading := minutesLoading st |}.

Definition setGenerationFrequency (v : Z) (st : Minutes) : Minutes :=
  {| transcriptText := transcriptText st; shouldGenerateRef := shouldGenerateRef st;
     countdownIntervalRef := countdownIntervalRef st; minutesStyle := minutesStyle st;
     customPrompt := customPrompt st; autoGenerate := autoGenerate st;
     generationFrequency := v;
     countdownSeconds := countdownSeconds st; minutesLoading := minutesLoading st |}.

Definition setCountdownSeconds (v : Z) (st : Minutes) : Minutes :=
  {| transcriptText := transcriptText st; shouldGenerateRef := shouldGenerateRef st;
     countdownIntervalRef := countdownIntervalRef st; minutesStyle := minutesStyle st;
     customPrompt := customPrompt st; autoGenerate := autoGenerate st;
     generationFrequency := generationFrequency st;
     countdownSeconds := v; minutesLoading := minutesLoading st |}.

Definition set_minutesLoading (v : bool) (st : Minutes) : Minutes :=
  {| transcriptText := transcriptText st; shouldGenerateRef := shouldGenerateRef st;
     countdownIntervalRef := countdownIntervalRef st; minutesStyle := minutesStyle st;
     customPrompt := customPrompt st; autoGenerate := autoGenerate st;
     generationFrequency := generationFrequency st;
     countdownSeconds := countdownSeconds st; minutesLoading := v |}.

(** Modelled from the spec: [useMeetingMinutes] is not among the sources at
    hand. Its [loading] flag is the spec's [pending]: true from the call of
    [generateMinutes] until that call completes, in success or failure. *)
Definition generateMinutes (st : Minutes) : Minutes * list Action :=
  (set_minutesLoading true st, [CallGenerateMinutes (transcriptText st)]).

(** Modelled from the spec: the generation call completes, and the
    [loading] flag of the hook turns false. The outcome is reported through
    the status callback, below. *)
Definition generationCompleted (st : Minutes) : Minutes :=
  set_minutesLoading false st.

(** The status callback that both calls of [generateMinutes] pass:
    [toast.success] on ['success'], [toast.error] on ['error'], nothing on
    any other status. *)
Definition statusCallback (status : jsstring) : list Action :=
  if bool_decide (status = js "success") then [ToastGenerationSuccess]
  else if bool_decide (status = js "error") then [ToastGenerationError]
  else [].

(** [transcriptText.trim() !== ''] *)
Definition hasTranscriptText (st : Minutes) : bool :=
  bool_decide (trim (transcriptText st) ≠ []).

(** The effect "Watch for generation signal and trigger generation". *)
Definition generationEffect (st : Minutes) : Minutes * list Action :=
  if shouldGenerateRef st && autoGenerate st
     && bool_decide (trim (transcriptText st) ≠ [])
  then
    if negb (minutesLoading st)
    then generateMinutes (set_shouldGenerateRef false st)
    else (set_shouldGenerateRef false st, [])
  else (st, []).

(** The effect "Auto-generation countdown setup": the running interval is
    cleared, and a new one is started when auto-generation is on. *)
Definition countdownSetup (st : Minutes) : Minutes :=
  let st := set_countdownIntervalRef None st in
  if negb (autoGenerate st) || bool_decide (generationFrequency st ≤ 0)
  then setCountdownSeconds 0 st
  else
    let totalSeconds := generationFrequency st * 60 in
    set_countdownIntervalRef (Some totalSeconds) (setCountdownSeconds totalSeconds st).

(** The interval callback, once a second: the updater of
    [setCountdownSeconds] raises the fire signal at zero. *)
Definition intervalTick (st : Minutes) : Minutes :=
  match countdownIntervalRef st with
  | Some totalSeconds =>
      let newValue := countdownSeconds st - 1 in
      if bool_decide (newValue ≤ 0)
      then setCountdownSeconds totalSeconds (set_shouldGenerateRef true st)
      else setCountdownSeconds newValue st
  | None => st
  end.

(** [handleManualGeneration] *)
Definition handleManualGeneration (st : Minutes) : Minutes * list Action :=
  if bool_decide (minutesStyle st = custom)
     && (negb (truthy (customPrompt st)) || bool_decide (trim (customPrompt st) = []))
  then (st, [ToastError])
  else if hasTranscriptText st && negb (minutesLoading st)
       then generateMinutes st
       else (st, []).

(** The generate button: [disabled={!hasTranscriptText || minutesLoading}]. *)
Definition generateDisabled (st : Minutes) : bool :=
  negb (hasTranscriptText st) || minutesLoading st.

(** A click on the generate button, the only caller of
    [handleManualGeneration]: a disabled button dispatches no click. *)
Definition clickGenerate (st : Minutes) : Minutes * list Action :=
  if generateDisabled st then (st, []) else handleManualGeneration st.

(** What can happen to the component: a tick of the interval; the hook
    lowering [loading] when a call completes, and the hook invoking the
    status callback of a call; a click on the generate button; a new
    transcript; the settings. *)
Inductive MinutesEvent :=
| Tick
| Completed
| StatusReported (status : jsstring)
| ManualGeneration
| TranscriptChanged (text : jsstring)
| SwitchAutoGenerate (on : bool)
| SelectGenerationFrequency (minutes : Z)
| SelectMinutesStyle (style : Style)
| EditCustomPrompt (prompt : jsstring).

Definition handle (st : Minutes) (ev : MinutesEvent) : Minutes * list Action :=
  match ev with
  | Tick => (intervalTick st, [])
  | Completed => (generationCompleted st, [])
  | StatusReported status => (st, statusCallback status)
  | ManualGeneration => clickGenerate st
  | TranscriptChanged text => (set_transcriptText text st, [])
  | SwitchAutoGenerate on => (setAutoGenerate on st, [])
  | SelectGenerationFrequency minutes => (setGenerationFrequency minutes st, [])
  | SelectMinutesStyle style => (setMinutesStyle style st, [])
  | EditCustomPrompt prompt => (setCustomPrompt prompt st, [])
  end.

(** The dependencies of the two effects that the state holds. *)
Definition setup_deps (st : Minutes) : bool * Z :=
  (autoGenerate st, generationFrequency st).

Definition generation_deps (st : Minutes) : Z * bool * jsstring * bool :=
  (countdownSeconds st, autoGenerate st, transcriptText st, minutesLoading st).

(** One event and the render that follows it: the handler runs, then each
    effect one of whose dependencies changed. The generation effect reads no
    state the countdown setup writes, and running it a second time in a row
    does nothing, so it is run once, after the setup. *)
Definition minutes_step (st : Minutes) (ev : MinutesEvent) : Minutes * list Action :=
  let '(st1, acts1) := handle st ev in
  let st2 :=
    if bool_decide (setup_deps st1 ≠ setup_deps st) then countdownSetup st1 else st1 in
  let '(st3, acts2) :=
    if bool_decide (generation_deps st2 ≠ generation_deps st)
    then generationEffect st2 else (st2, []) in
  (st3, acts1 ++ acts2).

Definition minutes_run (st : Minutes) (evs : list MinutesEvent) : Minutes * list Action :=
  foldl (λ '(st, acts) ev, let '(st', acts') := minutes_step st ev in (st', acts ++ acts'))
        (st, []) evs.

(** The state the effects of a step run on. *)
Definition before_effects (st : Minutes) (ev : MinutesEvent) : Minutes :=
  let st1 := (handle st ev).1 in
  if bool_decide (setup_deps st1 ≠ setup_deps st) then countdownSetup st1 else st1.

(** The spec's coalescing scenario, on the code: auto-generation every
    minute on a transcript that has text. *)
Definition warm_up : list MinutesEvent :=
  [TranscriptChanged (js "hello"); SelectGenerationFrequency 1; SwitchAutoGenerate true].

(** ** Agent form (components/agentBuilder/AgentForm.tsx) *)

(** The comma, the separator of the tags input. *)
Definition COMMA : N := 44%N.

(** [tagsInput.split(',').map((tag) => tag.trim()).filter((tag) => tag.length > 0)],
    as [handleSave] and the change notification compute the tags. *)
Definition parseTags (tagsInput : jsstring) : list jsstring :=
  filter (λ tag, 0 < jslength tag) (trim <$> split COMMA tagsInput).

(** [(initialData.tags || []).join(', ')], the tags input the form loads. *)
Definition tagsToInput (tags : list jsstring) : jsstring :=
  join (js ", ") tags.

(** ** Diagram options (unnamed/part_000, MeetingMinutesGeneration) *)

(** [toggleDiagramOption]: the updater passed to [setDiagramOptions]. The
    option type is declared with the prompts; any type with a decidable
    equality stands for it. *)
Definition toggleDiagramOption {A} `{EqDecision A} (option : A) (prev : list A) : list A :=
  if bool_decide (option ∈ prev) then
    if bool_decide (length prev = 1%nat) then prev
    else filter (λ o, o ≠ option) prev
  else prev ++ [option].

(** ** Model ids (packages/cdk/lib/utils/model-id-utils.ts) *)

(** The class [[a-zA-Z0-9-]]. *)
Definition is_export_char (c : N) : bool :=
  bool_decide (97 ≤ c ≤ 122)%N || bool_decide (65 ≤ c ≤ 90)%N
  || bool_decide (48 ≤ c ≤ 57)%N || bool_decide (c = 45%N).

(** [sanitizeModelId]: [modelId.replace(/[^a-zA-Z0-9-]/g, '-')]; without
    the [u] flag the pattern matches one code unit at a time. *)
Definition sanitizeModelId (modelId : jsstring) : jsstring :=
  (λ c, if is_export_char c then c else 45%N) <$> modelId.

(** ** Meeting minutes page (pages/MeetingMinutesPage.tsx) *)

Inductive ViewPanel := view_transcription | view_both | view_generation.

#[global] Instance ViewPanel_eq_dec : EqDecision ViewPanel.
Proof. solve_decision. Defined.

Record PageView := {
  activePanel : ViewPanel;
  isLargeScreen : bool;
}.

(** The [useState] initial values. *)
Definition initial_view : PageView :=
  {| activePanel := view_both; isLargeScreen := true |}.

(** [handleChange] of the media query listener, with [e.matches]. *)
Definition handleChange (matches : bool) (v : PageView) : PageView :=
  {| isLargeScreen := matches;
     activePanel :=
       if negb matches && bool_decide (activePanel v = view_both)
       then view_transcription else activePanel v |}.

(** [handlePanelChange] *)
Definition handlePanelChange (panel : ViewPanel) (v : PageView) : PageView :=
  {| isLargeScreen := isLargeScreen v;
     activePanel :=
       if bool_decide (panel = view_both) && negb (isLargeScreen v)
       then view_transcription else panel |}.

Inductive ViewEvent :=
| MediaChange (matches : bool)
| PanelChange (panel : ViewPanel).

Definition view_step (v : PageView) (ev : ViewEvent) : PageView :=
  match ev with
  | MediaChange matches => handleChange matches v
  | PanelChange panel => handlePanelChange panel v
  end.

(** ** Recording sessions (components/MeetingMinutes/MeetingMinutesTranscription.tsx) *)

(** Modelled from the spec: [start(languageHint?, enableSpeakerLabels)]
    begins acquisition from the source. *)
Definition startTranscription (s : SourceHook) : SourceHook :=
  {| recording := true; rawTranscripts := rawTranscripts s |}.

(** What [prepareScreenCapture()] comes to: a stream, [null], or a
    rejection. *)
Inductive ScreenCapture := capture_stream | capture_null | capture_rejected.

(** [onClickExecStartTranscription]: the session id is incremented and the
    buffers of both hooks are cleared; then, in the [try], the screen source
    starts when a stream was captured and the microphone starts when it is
    enabled; in the [catch] of a rejected capture the microphone starts
    when it is enabled. [enableMicAudio] and [isScreenAudioSupported] are
    the state and the hook value the handler reads. *)
Definition onClickExecStartTranscription (enableMicAudio isScreenAudioSupported : bool)
    (capture : ScreenCapture) (st : Transcription) : Transcription :=
  let mic0 := clearTranscripts (mic st) in
  let screen0 := clearTranscripts (screenAudio st) in
  let startMic m := if enableMicAudio then startTranscription m else m in
  let '(mic1, screen1) :=
    if enableScreenAudio st && isScreenAudioSupported then
      match capture with
      | capture_stream => (startMic mic0, startTranscription screen0)
      | capture_null => (startMic mic0, screen0)
      | capture_rejected => (startMic mic0, screen0)
      end
    else (startMic mic0, screen0) in
  {| transcriptionSegments := transcriptionSegments st;
     currentSessionId := currentSessionId st + 1;
     enableScreenAudio := enableScreenAudio st;
     mic := mic1; screenAudio := screen1 |}.

(** [handleStopRecording] *)
Definition handleStopRecording (st : Transcription) : Transcription :=
  {| transcriptionSegments := transcriptionSegments st;
     currentSessionId := currentSessionId st;
     enableScreenAudio := enableScreenAudio st;
     mic := stopTranscription (mic st);
     screenAudio := stopTranscription (screenAudio st) |}.

Definition set_micRawTranscripts (raws : list RawSegment) (st : Transcription)
  : Transcription :=
  {| transcriptionSegments := transcriptionSegments st;
     currentSessionId := currentSessionId st;
     enableScreenAudio := enableScreenAudio st;
     mic := {| recording := recording (mic st); rawTranscripts := raws |};
     screenAudio := screenAudio st |}.

Definition set_screenRawTranscripts (raws : list RawSegment) (st : Transcription)
  : Transcription :=
  {| transcriptionSegments := transcriptionSegments st;
     currentSessionId := currentSessionId st;
     enableScreenAudio := enableScreenAudio st;
     mic := mic st;
     screenAudio := {| recording := recording (screenAudio st); rawTranscripts := raws |} |}.

Definition setEnableScreenAudio (v : bool) (st : Transcription) : Transcription :=
  {| transcriptionSegments := transcriptionSegments st;
     currentSessionId := currentSessionId st;
     enableScreenAudio := v;
     mic := mic st; screenAudio := screenAudio st |}.

(** What can happen to the transcription panel: the three buttons, the
    screen audio switch, and either source hook publishing a new array of
    transcripts. *)
Inductive PanelEvent :=
| StartRecording (enableMicAudio isScreenAudioSupported : bool) (capture : ScreenCapture)
| StopRecording
| ClearTranscript
| SwitchScreenAudio (on : bool)
| MicTranscripts (raws : list RawSegment)
| ScreenTranscripts (raws : list RawSegment).

(** One event and the render that follows it: the handler runs, then each
    source effect one of whose dependencies changed (its array of
    transcripts, which every publication and every clearing replaces, the
    session id, and for the screen source the switch). *)
Definition panel_step (st : Transcription) (ev : PanelEvent) : Transcription :=
  match ev with
  | StartRecording enableMicAudio isScreenAudioSupported capture =>
      processScreen
        (processMicrophone
           (onClickExecStartTranscription enableMicAudio isScreenAudioSupported capture st))
  | StopRecording => handleStopRecording st
  | ClearTranscript => processScreen (processMicrophone (handleClear st))
  | SwitchScreenAudio on =>
      if bool_decide (on = enableScreenAudio st) then st
      else processScreen (setEnableScreenAudio on st)
  | MicTranscripts raws => processMicrophone (set_micRawTranscripts raws st)
  | ScreenTranscripts raws => processScreen (set_screenRawTranscripts raws st)
  end.

Definition panel_run (st : Transcription) (evs : list PanelEvent) : Transcription :=
  foldl panel_step st evs.

(** Two segments as a source hook publishes them. *)
Definition raw_r1 : RawSegment :=
  {| raw_resultId := js "r1"; raw_startTime := Qc_of_Z 0; raw_endTime := Qc_of_Z 2;
     raw_isPartial := false;
     raw_transcripts := [{| speakerLabel := None; transcript := js "hello" |}] |}.

Definition raw_r2 : RawSegment :=
  {| raw_resultId := js "r2"; raw_startTime := Qc_of_Z 0; raw_endTime := Qc_of_Z 1;
     raw_isPartial := true;
     raw_transcripts := [{| speakerLabel := None; transcript := js "again" |}] |}.

(** * Properties *)

(** ** JavaScript strings: occurrences and [indexOf] *)

Section occurrences.
Implicit Types needle s t : jsstring.

Lemma find_from_Some needle s pos i :
  find_from needle s pos = Some i ↔
  ∃ k, i = (pos + k)%nat ∧ first_at needle s 0 k.
Proof.
  revert pos i. induction s as [|c s IH]; intros pos i; simpl.
  - destruct (decide (needle `prefix_of` [])) as [Hp|Hp].
    + split.
      * intros [= <-]. exists 0%nat. repeat split; simpl; try lia; auto.
      * intros (k & -> & [_ Hk] & _). simpl in Hk. f_equal. lia.
    + split; [done|]. intros (k & _ & [_ Hk] & Hk' & _). simpl in Hk.
      assert (k = 0%nat) as -> by lia. done.
  - destruct (decide (needle `prefix_of` c :: s)) as [Hp|Hp].
    + split.
      * intros [= <-]. exists 0%nat. repeat split; simpl; try lia; auto.
      * intros (k & -> & _ & _ & Hmin). destruct k as [|k]; [f_equal; lia|].
        destruct (Hmin 0%nat); [lia|done].
    + rewrite IH. split.
      * intros (k & -> & [Hk1 Hk2] & Hk' & Hmin). exists (S k).
        split; [lia|]. repeat split; simpl; try lia; auto.
        intros [|j] Hj; simpl; [done|]. apply Hmin. lia.
      * intros (k & -> & [Hk1 Hk2] & Hk' & Hmin). destruct k as [|k]; [done|].
        exists k. split; [lia|]. simpl in *. repeat split; try lia; auto.
        intros j Hj. apply (Hmin (S j)). lia.
Qed.

Lemma find_from_None needle s pos :
  find_from needle s pos = None ↔ none_from needle s 0.
Proof.
  revert pos. induction s as [|c s IH]; intros pos; simpl.
  - destruct (decide (needle `prefix_of` [])) as [Hp|Hp].
    + split; [done|]. intros Hn. destruct (Hn 0%nat); simpl; [lia|done].
    + split; [|done]. intros _ j Hj. simpl in Hj.
      assert (j = 0%nat) as -> by lia. done.
  - destruct (decide (needle `prefix_of` c :: s)) as [Hp|Hp].
    + split; [done|]. intros Hn. destruct (Hn 0%nat); simpl; [lia|done].
    + rewrite IH. split.
      * intros Hn [|j] Hj; simpl; [done|]. apply Hn. simpl in Hj. lia.
      * intros Hn j Hj. apply (Hn (S j)). simpl. lia.
Qed.

Lemma clamp_le s position : (clamp s position ≤ length s)%nat.
Proof. unfold clamp, jslength. lia. Qed.

Lemma clamp_nat s (p : nat) : (p ≤ length s)%nat → clamp s (Z.of_nat p) = p.
Proof. unfold clamp, jslength. lia. Qed.

Lemma first_at_drop needle s p k :
  (p ≤ length s)%nat →
  first_at needle (drop p s) 0 k ↔ first_at needle s p (p + k).
Proof.
  intros Hp. unfold first_at. rewrite length_drop, drop_drop. split.
  - intros ([_ Hk] & Hpre & Hmin). repeat split; try lia; auto.
    intros j Hj. replace j with (p + (j - p))%nat by lia.
    rewrite <-drop_drop. apply Hmin. lia.
  - intros ([_ Hk] & Hpre & Hmin). repeat split; try lia; auto.
    intros j Hj. rewrite drop_drop. apply Hmin. lia.
Qed.

Lemma none_from_drop needle s p :
  (p ≤ length s)%nat → none_from needle (drop p s) 0 ↔ none_from needle s p.
Proof.
  intros Hp. unfold none_from. rewrite length_drop. split.
  - intros Hn j Hj. replace j with (p + (j - p))%nat by lia.
    rewrite <-drop_drop. apply Hn. lia.
  - intros Hn j Hj. rewrite drop_drop. apply Hn. lia.
Qed.

(** [indexOf] returns the first occurrence from the clamped position, or
    [-1] when there is none. *)
Lemma indexOf_spec s needle position :
  (indexOf s needle position = -1 ∧ none_from needle s (clamp s position)) ∨
  (∃ i, indexOf s needle position = Z.of_nat i ∧
        first_at needle s (clamp s position) i).
Proof.
  unfold indexOf.
  pose proof (clamp_le s position) as Hc.
  destruct (find_from _ _ _) as [i|] eqn:Hf.
  - right. exists i. split; [done|].
    apply find_from_Some in Hf as (k & -> & Hk). by apply first_at_drop.
  - left. split; [done|]. apply find_from_None in Hf. by apply none_from_drop.
Qed.

Lemma first_at_unique needle s p i i' :
  first_at needle s p i → first_at needle s p i' → i = i'.
Proof.
  intros ([Hi1 Hi2] & Hpre & Hmin) ([Hi1' Hi2'] & Hpre' & Hmin').
  destruct (decide (i < i')%nat); [destruct (Hmin' i); [lia|done]|].
  destruct (decide (i' < i)%nat); [destruct (Hmin i'); [lia|done]|]. lia.
Qed.

Lemma first_at_none needle s p i :
  first_at needle s p i → none_from needle s p → False.
Proof. intros (Hi & Hpre & _) Hn. by apply (Hn i). Qed.

Lemma indexOf_first s needle position i :
  first_at needle s (clamp s position) i → indexOf s needle position = Z.of_nat i.
Proof.
  intros Hi. destruct (indexOf_spec s needle position) as [[_ Hn]|(i' & -> & Hi')].
  - destruct (first_at_none _ _ _ _ Hi Hn).
  - f_equal. eapply first_at_unique; eauto.
Qed.

Lemma indexOf_none s needle position :
  none_from needle s (clamp s position) → indexOf s needle position = -1.
Proof.
  intros Hn. destruct (indexOf_spec s needle position) as [[? _]|(i' & _ & Hi')]; [done|].
  destruct (first_at_none _ _ _ _ Hi' Hn).
Qed.

(** An occurrence fits in the string. *)
Lemma prefix_drop_fits needle s i :
  (i ≤ length s)%nat → needle `prefix_of` drop i s → (i + length needle ≤ length s)%nat.
Proof. intros Hi Hpre%prefix_length. rewrite length_drop in Hpre. lia. Qed.

(** An occurrence that fits in [s] is an occurrence in [s ++ t], and back. *)
Lemma prefix_drop_app needle s t j :
  (j + length needle ≤ length s)%nat →
  needle `prefix_of` drop j (s ++ t) ↔ needle `prefix_of` drop j s.
Proof.
  intros Hj. rewrite drop_app_le by lia. split.
  - intros [k Hk].
    exists (take (length s - j - length needle) (drop (length needle) (drop j s))).
    rewrite <-(take_drop (length needle) (drop j s)) at 1.
    f_equal.
    + apply (f_equal (take (length needle))) in Hk.
      rewrite take_app_le in Hk by (rewrite length_drop; lia).
      rewrite Hk. by rewrite take_app_length.
    + rewrite take_ge; [done|]. rewrite !length_drop. lia.
  - intros Hpre. by apply prefix_app_r.
Qed.

(** Growing the buffer does not move a first occurrence. *)
Lemma first_at_app needle s t p i :
  first_at needle s p i → first_at needle (s ++ t) p i.
Proof.
  intros ([Hi1 Hi2] & Hpre & Hmin).
  pose proof (prefix_drop_fits _ _ _ Hi2 Hpre) as Hfit.
  repeat split; [lia|rewrite length_app; lia| |].
  - by apply prefix_drop_app.
  - intros j Hj Hpre'. apply (Hmin j Hj). apply prefix_drop_app in Hpre'; [done|lia].
Qed.

Lemma indexOf_app s t needle (p : nat) i :
  (p ≤ length s)%nat →
  indexOf s needle (Z.of_nat p) = i → i ≠ -1 →
  indexOf (s ++ t) needle (Z.of_nat p) = i.
Proof.
  intros Hp Hi Hne.
  destruct (indexOf_spec s needle (Z.of_nat p)) as [[? _]|(k & Hk & Hfirst)]; [congruence|].
  rewrite <-Hi, Hk. apply indexOf_first.
  rewrite clamp_nat in Hfirst by done.
  rewrite clamp_nat by (rewrite length_app; lia).
  by apply first_at_app.
Qed.

(** [slice] between two positions of [s] does not look past [s]. *)
Lemma slice_app s t (a b : nat) :
  (a ≤ length s)%nat → (b ≤ length s)%nat →
  slice (s ++ t) (Z.of_nat a) (Z.of_nat b) = slice s (Z.of_nat a) (Z.of_nat b).
Proof.
  intros Ha Hb. unfold slice, rel_index, jslength. rewrite length_app.
  repeat case_decide; try lia.
  rewrite !Z.min_l by lia. rewrite Nat2Z.id.
  rewrite drop_app_le by lia.
  rewrite take_app_le; [done|]. rewrite length_drop. lia.
Qed.

(** [slice] between two positions, in terms of [take] and [drop]. *)
Lemma slice_nat s (a b : nat) :
  (a ≤ length s)%nat → (b ≤ length s)%nat →
  slice s (Z.of_nat a) (Z.of_nat b) = take (b - a) (drop a s).
Proof.
  intros Ha Hb. unfold slice, rel_index, jslength.
  repeat case_decide; try lia.
  rewrite !Z.min_l by lia. rewrite Nat2Z.id. f_equal. lia.
Qed.

Lemma slice_from_nat s (a : nat) :
  (a ≤ length s)%nat → slice_from s (Z.of_nat a) = drop a s.
Proof.
  intros Ha. unfold slice_from, jslength. rewrite slice_nat by lia.
  apply take_ge. rewrite length_drop. lia.
Qed.
End occurrences.

Section occurrences_Z.
Implicit Types needle s t : jsstring.

Lemma indexOf_found s needle position i :
  indexOf s needle position = i → i ≠ -1 →
  0 ≤ i ∧ i + jslength needle ≤ jslength s ∧
  first_at needle s (clamp s position) (Z.to_nat i).
Proof.
  intros Hi Hne.
  destruct (indexOf_spec s needle position) as [[? _]|(k & Hk & Hfirst)]; [congruence|].
  rewrite Hk in Hi. clear Hk. subst i. rewrite Nat2Z.id.
  destruct Hfirst as ([? ?] & Hpre & ?).
  pose proof (prefix_drop_fits _ _ _ ltac:(done) Hpre).
  unfold jslength. repeat split; auto; lia.
Qed.

Lemma indexOf_app_Z s t needle position i :
  0 ≤ position ≤ jslength s →
  indexOf s needle position = i → i ≠ -1 →
  indexOf (s ++ t) needle position = i.
Proof.
  intros Hp Hi Hne. unfold jslength in Hp.
  replace position with (Z.of_nat (Z.to_nat position)) in * by lia.
  apply indexOf_app; auto. lia.
Qed.

Lemma slice_app_Z s t a b :
  0 ≤ a ≤ jslength s → 0 ≤ b ≤ jslength s →
  slice (s ++ t) a b = slice s a b.
Proof.
  unfold jslength. intros Ha Hb.
  replace a with (Z.of_nat (Z.to_nat a)) by lia.
  replace b with (Z.of_nat (Z.to_nat b)) by lia.
  apply slice_app; lia.
Qed.

Lemma slice_from_Z s a :
  0 ≤ a ≤ jslength s → slice_from s a = drop (Z.to_nat a) s.
Proof.
  unfold jslength. intros Ha.
  replace a with (Z.of_nat (Z.to_nat a)) at 1 by lia.
  apply slice_from_nat. lia.
Qed.

Lemma trimStart_app_nil s t : trimStart (s ++ t) = [] → trimStart s = [].
Proof.
  induction s as [|c s IH]; simpl; [done|]. destruct (is_ws c); [done|]. discriminate.
Qed.

Lemma truthy_false s : truthy s = false ↔ s = [].
Proof. destruct s; simpl; split; congruence. Qed.

Lemma truthy_true s : truthy s = true ↔ s ≠ [].
Proof. destruct s; simpl; split; congruence. Qed.
End occurrences_Z.

(** Arithmetic on string lengths. *)
Ltac jslia := unfold jslength in *; simpl length in *; lia.

(** ** MarkerExtractor: growth of the buffer *)

Section extractor.
Implicit Types raw t : jsstring.

Lemma parseMCPServers_Some raw servers :
  parseMCPServers raw = Some servers ↔
  indexOf raw MCP_SERVERS_START_MARKER 0 ≠ -1 ∧
  indexOf raw MCP_SERVERS_END_MARKER 0 ≠ -1 ∧
  indexOf raw MCP_SERVERS_START_MARKER 0 < indexOf raw MCP_SERVERS_END_MARKER 0 ∧
  servers = server_lines
              (slice raw (indexOf raw MCP_SERVERS_START_MARKER 0
                          + jslength MCP_SERVERS_START_MARKER)
                     (indexOf raw MCP_SERVERS_END_MARKER 0)).
Proof.
  unfold parseMCPServers.
  repeat case_bool_decide; simpl; split; try done; try (intros (? & ? & ? & ?); lia).
  - intros [= <-]. repeat split; auto; lia.
  - by intros (_ & _ & _ & ->).
Qed.

Lemma parseMCPServers_None raw :
  parseMCPServers raw = None ↔
  indexOf raw MCP_SERVERS_START_MARKER 0 = -1 ∨
  indexOf raw MCP_SERVERS_END_MARKER 0 = -1 ∨
  indexOf raw MCP_SERVERS_END_MARKER 0 ≤ indexOf raw MCP_SERVERS_START_MARKER 0.
Proof.
  unfold parseMCPServers.
  repeat case_bool_decide; simpl; split; try done; auto; intros [?|[?|?]]; lia.
Qed.

(** Once the server list parses, it parses to the same list on every
    extension of the buffer. *)
Lemma parseMCPServers_app raw t servers :
  parseMCPServers raw = Some servers → parseMCPServers (raw ++ t) = Some servers.
Proof.
  rewrite !parseMCPServers_Some. intros (Hs & He & Hlt & ->).
  pose proof (indexOf_found _ _ _ _ eq_refl Hs) as (? & ? & _).
  pose proof (indexOf_found _ _ _ _ eq_refl He) as (? & ? & _).
  rewrite (indexOf_app_Z raw t _ 0 _ ltac:(jslia) eq_refl Hs).
  rewrite (indexOf_app_Z raw t _ 0 _ ltac:(jslia) eq_refl He).
  repeat split; auto. f_equal. symmetry. apply slice_app_Z; jslia.
Qed.

Lemma systemPromptState_closed raw :
  systemPromptState raw = closed ↔
  indexOf raw SYSTEM_PROMPT_START_MARKER 0 ≠ -1 ∧
  indexOf raw SYSTEM_PROMPT_END_MARKER
    (indexOf raw SYSTEM_PROMPT_START_MARKER 0 + jslength SYSTEM_PROMPT_START_MARKER) ≠ -1.
Proof.
  unfold systemPromptState. repeat case_bool_decide; split; try done; intros [? ?]; done.
Qed.

Lemma systemPromptState_open raw :
  systemPromptState raw = open ↔
  indexOf raw SYSTEM_PROMPT_START_MARKER 0 ≠ -1 ∧
  indexOf raw SYSTEM_PROMPT_END_MARKER
    (indexOf raw SYSTEM_PROMPT_START_MARKER 0 + jslength SYSTEM_PROMPT_START_MARKER) = -1.
Proof.
  unfold systemPromptState. repeat case_bool_decide; split; try done; intros [? ?]; done.
Qed.

Lemma systemPromptState_absent raw :
  systemPromptState raw = absent ↔ indexOf raw SYSTEM_PROMPT_START_MARKER 0 = -1.
Proof. unfold systemPromptState. repeat case_bool_decide; split; done. Qed.

Lemma extractSystemPrompt_closed raw :
  systemPromptState raw = closed →
  extractSystemPrompt raw =
    trim (slice raw
            (indexOf raw SYSTEM_PROMPT_START_MARKER 0 + jslength SYSTEM_PROMPT_START_MARKER)
            (indexOf raw SYSTEM_PROMPT_END_MARKER
               (indexOf raw SYSTEM_PROMPT_START_MARKER 0
                + jslength SYSTEM_PROMPT_START_MARKER))).
Proof.
  rewrite systemPromptState_closed. intros [? ?]. unfold extractSystemPrompt.
  by rewrite !bool_decide_eq_false_2.
Qed.

Lemma extractSystemPrompt_open raw :
  systemPromptState raw = open →
  extractSystemPrompt raw =
    trimStart (slice_from raw
                 (indexOf raw SYSTEM_PROMPT_START_MARKER 0
                  + jslength SYSTEM_PROMPT_START_MARKER)).
Proof.
  rewrite systemPromptState_open. intros [? ?]. unfold extractSystemPrompt.
  by rewrite bool_decide_eq_false_2, bool_decide_eq_true_2.
Qed.

Lemma extractSystemPrompt_absent raw :
  systemPromptState raw = absent → extractSystemPrompt raw = [].
Proof.
  rewrite systemPromptState_absent. intros ?. unfold extractSystemPrompt.
  by rewrite bool_decide_eq_true_2.
Qed.

(** A closed system prompt stays closed, with the same value. *)
Lemma systemPrompt_closed_app raw t :
  systemPromptState raw = closed →
  systemPromptState (raw ++ t) = closed ∧
  extractSystemPrompt (raw ++ t) = extractSystemPrompt raw.
Proof.
  intros Hc. pose proof Hc as [Hs He]%systemPromptState_closed.
  pose proof (indexOf_found _ _ _ _ eq_refl Hs) as (? & Hfit & _).
  pose proof (indexOf_found _ _ _ _ eq_refl He) as (? & ? & _).
  assert (0 ≤ indexOf raw SYSTEM_PROMPT_START_MARKER 0
              + jslength SYSTEM_PROMPT_START_MARKER ≤ jslength raw) as Hcs by jslia.
  assert (systemPromptState (raw ++ t) = closed) as Hc'.
  { apply systemPromptState_closed.
    rewrite (indexOf_app_Z raw t _ 0 _ ltac:(jslia) eq_refl Hs).
    by rewrite (indexOf_app_Z raw t _ _ _ Hcs eq_refl He). }
  split; [done|].
  rewrite (extractSystemPrompt_closed _ Hc), (extractSystemPrompt_closed _ Hc').
  rewrite (indexOf_app_Z raw t _ 0 _ ltac:(jslia) eq_refl Hs).
  rewrite (indexOf_app_Z raw t _ _ _ Hcs eq_refl He).
  f_equal. apply slice_app_Z; jslia.
Qed.

(** A system prompt that is open in the grown buffer was open or absent
    before, and what was extracted before is empty when what is extracted
    now is. *)
Lemma systemPrompt_not_closed_app raw t :
  systemPromptState (raw ++ t) ≠ closed →
  extractSystemPrompt (raw ++ t) = [] →
  systemPromptState raw ≠ closed ∧ extractSystemPrompt raw = [].
Proof.
  intros Hnc Hnil.
  assert (systemPromptState raw ≠ closed) as Hnc'.
  { intros Hc. by apply (systemPrompt_closed_app raw t) in Hc as [? _]. }
  split; [done|].
  destruct (systemPromptState raw) eqn:Hst; [by apply extractSystemPrompt_absent|
                                               |done].
  rewrite (extractSystemPrompt_open _ Hst).
  pose proof Hst as [Hs He]%systemPromptState_open.
  pose proof (indexOf_found _ _ _ _ eq_refl Hs) as (? & Hfit & _).
  assert (systemPromptState (raw ++ t) = open) as Hst'.
  { destruct (systemPromptState (raw ++ t)) eqn:Hst'; [|done|done].
    apply systemPromptState_absent in Hst'.
    by rewrite (indexOf_app_Z raw t _ 0 _ ltac:(jslia) eq_refl Hs) in Hst'. }
  rewrite (extractSystemPrompt_open _ Hst') in Hnil.
  rewrite (indexOf_app_Z raw t _ 0 _ ltac:(jslia) eq_refl Hs) in Hnil.
  rewrite slice_from_Z in Hnil by (unfold jslength in *; rewrite length_app; lia).
  rewrite slice_from_Z by jslia.
  rewrite drop_app_le in Hnil by (unfold jslength in *; lia).
  by apply trimStart_app_nil in Hnil.
Qed.
End extractor.

(** ** MarkerExtractor: feeding a stream *)

Section feeding.
Implicit Types (h : Hook) (raw t : jsstring) (texts : list jsstring).

Lemma feed_feed_from h0 texts :
  feed h0 texts = feed_from (generate_begin h0) [] texts.
Proof. done. Qed.

Lemma feed_from_cons h raw t texts :
  feed_from h raw (t :: texts) =
    feed_from (consume_text h raw t).1 (consume_text h raw t).2 texts.
Proof. unfold feed_from. simpl. by destruct (consume_text h raw t). Qed.

Lemma feed_from_app h raw texts more :
  feed_from h raw (texts ++ more) =
    feed_from (feed_from h raw texts).1 (feed_from h raw texts).2 more.
Proof.
  unfold feed_from. rewrite foldl_app. by destruct (foldl _ _ texts).
Qed.

Lemma consume_text_raw h raw t : (consume_text h raw t).2 = raw ++ t.
Proof. unfold consume_text. destruct t; simpl; [by rewrite app_nil_r|done]. Qed.

Lemma consume_text_nil h raw : consume_text h raw [] = (h, raw).
Proof. done. Qed.

Lemma feed_from_raw h raw texts : (feed_from h raw texts).2 = raw ++ concat texts.
Proof.
  revert h raw. induction texts as [|t texts IH]; intros h raw.
  - simpl. by rewrite app_nil_r.
  - rewrite feed_from_cons, IH, consume_text_raw. simpl. by rewrite <-app_assoc.
Qed.

Lemma consume_text_servers_inv h raw t :
  servers_inv h raw → servers_inv (consume_text h raw t).1 (raw ++ t).
Proof.
  unfold servers_inv, consume_text. destruct t as [|c t]; simpl.
  { by rewrite app_nil_r. }
  destruct (mcpServersParsedRef h) eqn:Hp.
  - intros Hs. apply (parseMCPServers_app _ (c :: t)) in Hs.
    destruct (truthy _); simpl; by rewrite Hp.
  - intros [_ Hnil].
    destruct (parseMCPServers (raw ++ c :: t)) as [servers|] eqn:Hs;
      destruct (truthy _); simpl; rewrite ?Hp; done.
Qed.

Lemma consume_text_prompt_inv h raw t :
  prompt_inv h raw → prompt_inv (consume_text h raw t).1 (raw ++ t).
Proof.
  unfold prompt_inv, consume_text. destruct t as [|c t]; simpl.
  { by rewrite app_nil_r. }
  intros IH Hnow.
  destruct (extractSystemPrompt (raw ++ c :: t)) as [|d v] eqn:Hv; simpl.
  - destruct Hnow as [?|Hnc]; [done|].
    destruct (systemPrompt_not_closed_app raw (c :: t) Hnc Hv) as [Hnc' Hnil].
    assert (generatedPrompt h = []) as Hg by (rewrite <-Hnil; auto).
    destruct (mcpServersParsedRef h); [done|]. by destruct (parseMCPServers _).
  - done.
Qed.

Lemma feed_from_inv h raw texts :
  servers_inv h raw → prompt_inv h raw →
  servers_inv (feed_from h raw texts).1 (raw ++ concat texts) ∧
  prompt_inv (feed_from h raw texts).1 (raw ++ concat texts).
Proof.
  revert h raw. induction texts as [|t texts IH]; intros h raw Hs Hp.
  - simpl. by rewrite app_nil_r.
  - rewrite feed_from_cons, consume_text_raw. simpl. rewrite app_assoc.
    apply IH; [by apply consume_text_servers_inv|by apply consume_text_prompt_inv].
Qed.

Lemma feed_inv h0 texts :
  servers_inv (feed h0 texts).1 (concat texts) ∧
  prompt_inv (feed h0 texts).1 (concat texts).
Proof.
  rewrite feed_feed_from. apply (feed_from_inv _ [] texts).
  - by vm_compute.
  - intros _. by vm_compute.
Qed.

(** The text-level loop body touches neither the error, nor the pending
    flag, nor the abort controllers. *)
Lemma consume_text_kept h raw t :
  error (consume_text h raw t).1 = error h ∧
  isGenerating (consume_text h raw t).1 = isGenerating h ∧
  abortControllerRef (consume_text h raw t).1 = abortControllerRef h ∧
  controllers (consume_text h raw t).1 = controllers h.
Proof.
  unfold consume_text. destruct (truthy t); [|done].
  destruct (truthy (extractSystemPrompt _)), (mcpServersParsedRef h);
    try destruct (parseMCPServers _); done.
Qed.

Lemma feed_from_kept h raw texts :
  error (feed_from h raw texts).1 = error h ∧
  isGenerating (feed_from h raw texts).1 = isGenerating h ∧
  abortControllerRef (feed_from h raw texts).1 = abortControllerRef h ∧
  controllers (feed_from h raw texts).1 = controllers h.
Proof.
  revert h raw. induction texts as [|t texts IH]; intros h raw; [done|].
  rewrite feed_from_cons.
  destruct (IH (consume_text h raw t).1 (consume_text h raw t).2) as (-> & -> & -> & ->).
  apply consume_text_kept.
Qed.

Lemma feed_snoc h0 texts t :
  feed h0 (texts ++ [t]) = consume_text (feed h0 texts).1 (feed h0 texts).2 t.
Proof. unfold feed. rewrite foldl_app. simpl. by destruct (foldl _ _ texts). Qed.

(** One invocation, alone, consumes the texts of its chunks as [feed]
    does, as long as the decoding of no chunk throws. *)
Lemma run_single_call `{JsonParse} (chunks texts : list jsstring) :
  Forall2 (λ chunk text, chunk_text_of chunk = Some text) chunks texts →
  run initial_world (Generate :: (Chunk 0 <$> chunks))
  = {| hook := (feed initial_hook texts).1;
       calls := [{| rawOutput := (feed initial_hook texts).2; returned := None |}] |}.
Proof.
  revert texts. induction chunks as [|chunk chunks IH] using rev_ind; intros texts Hall.
  { by apply Forall2_nil_inv_l in Hall as ->. }
  apply Forall2_app_inv_l in Hall as (texts' & last & Hall & Hlast & ->).
  apply Forall2_cons_inv_l in Hlast as (text & ? & Htext & ->%Forall2_nil_inv_l & ->).
  rewrite !fmap_app. simpl fmap.
  unfold run in *. rewrite app_comm_cons, foldl_app, (IH _ Hall). simpl.
  assert (signal_aborted (feed initial_hook texts').1 = false) as ->.
  { unfold signal_aborted. rewrite feed_feed_from.
    by destruct (feed_from_kept (generate_begin initial_hook) [] texts')
      as (_ & _ & -> & ->). }
  rewrite Htext, feed_snoc. by destruct (consume_text _ _ _).
Qed.

(** A parsed server list is cached: later texts leave it alone. *)
Lemma feed_from_servers_cached h raw texts :
  mcpServersParsedRef h = true →
  mcpServersParsedRef (feed_from h raw texts).1 = true ∧
  suggestedMCPServers (feed_from h raw texts).1 = suggestedMCPServers h.
Proof.
  revert h raw. induction texts as [|t texts IH]; intros h raw Hp; [done|].
  rewrite feed_from_cons.
  assert (mcpServersParsedRef (consume_text h raw t).1 = true ∧
          suggestedMCPServers (consume_text h raw t).1 = suggestedMCPServers h)
    as [Hp' <-].
  { unfold consume_text. destruct (truthy t); [|done]. rewrite Hp.
    by destruct (truthy (extractSystemPrompt _)). }
  by apply IH.
Qed.

(** A closed system prompt is re-extracted to the same value, so what is
    stored does not change. *)
Lemma feed_from_prompt_closed h raw texts :
  systemPromptState raw = closed →
  (extractSystemPrompt raw ≠ [] → generatedPrompt h = extractSystemPrompt raw) →
  generatedPrompt (feed_from h raw texts).1 = generatedPrompt h.
Proof.
  revert h raw. induction texts as [|t texts IH]; intros h raw Hc Hg; [done|].
  rewrite feed_from_cons.
  destruct (systemPrompt_closed_app raw t Hc) as [Hc' Hv].
  assert (generatedPrompt (consume_text h raw t).1 = generatedPrompt h) as Hsame.
  { unfold consume_text. destruct (truthy t); [|done]. rewrite Hv.
    destruct (truthy (extractSystemPrompt raw)) eqn:Ht.
    - apply truthy_true in Ht. rewrite <-(Hg Ht).
      destruct (mcpServersParsedRef h); [done|]. by destruct (parseMCPServers _).
    - destruct (mcpServersParsedRef h); [done|]. by destruct (parseMCPServers _). }
  rewrite <-Hsame. apply IH.
  - by rewrite consume_text_raw.
  - rewrite consume_text_raw, Hv, Hsame. done.
Qed.
End feeding.

(** ** MarkerExtractor: the claims *)

Section marker_claims.
Implicit Types (raw pre content post : jsstring) (texts more : list jsstring).

Lemma clamp_0 s : clamp s 0 = 0%nat.
Proof. unfold clamp, jslength. lia. Qed.

Lemma first_at_prepend needle x s p i :
  first_at needle s p i → first_at needle (x ++ s) (length x + p) (length x + i).
Proof.
  intros ([Hi1 Hi2] & Hpre & Hmin). unfold first_at.
  rewrite length_app, drop_app_add. repeat split; try lia; auto.
  intros j Hj. replace j with (length x + (j - length x))%nat by lia.
  rewrite drop_app_add. apply Hmin. lia.
Qed.

(** X4. The system prompt is searched for its end only from the end of its
    start marker on: whatever precedes the start marker, an end marker
    included, the value is what lies between the start marker and the
    first end marker after it. *)
Lemma extractSystemPrompt_between pre content post :
  indexOf (pre ++ SYSTEM_PROMPT_START_MARKER) SYSTEM_PROMPT_START_MARKER 0
    = jslength pre →
  indexOf (content ++ SYSTEM_PROMPT_END_MARKER) SYSTEM_PROMPT_END_MARKER 0
    = jslength content →
  extractSystemPrompt
    (pre ++ SYSTEM_PROMPT_START_MARKER ++ content ++ SYSTEM_PROMPT_END_MARKER ++ post)
  = trim content.
Proof.
  intros Hs He.
  apply indexOf_found in Hs as (_ & _ & Hs); [|jslia].
  apply indexOf_found in He as (_ & _ & He); [|jslia].
  unfold jslength in Hs, He. rewrite Nat2Z.id in Hs, He.
  rewrite clamp_0 in Hs, He.
  set (whole := pre ++ _).
  assert (whole = (pre ++ SYSTEM_PROMPT_START_MARKER)
                    ++ ((content ++ SYSTEM_PROMPT_END_MARKER) ++ post)) as Hw
    by (unfold whole; by rewrite <-!app_assoc).
  assert (indexOf whole SYSTEM_PROMPT_START_MARKER 0 = Z.of_nat (length pre)) as Hi.
  { apply indexOf_first. rewrite clamp_0, Hw.
    by apply first_at_app. }
  assert (indexOf whole SYSTEM_PROMPT_END_MARKER
            (Z.of_nat (length pre) + jslength SYSTEM_PROMPT_START_MARKER)
          = Z.of_nat (length pre + 15 + length content)) as Hj.
  { apply indexOf_first.
    replace (clamp whole _) with (length (pre ++ SYSTEM_PROMPT_START_MARKER) + 0)%nat.
    2:{ unfold clamp, jslength. rewrite Hw, !length_app. simpl. lia. }
    replace (length pre + 15 + length content)%nat
      with (length (pre ++ SYSTEM_PROMPT_START_MARKER) + length content)%nat
      by (rewrite length_app; simpl; lia).
    rewrite Hw. apply first_at_prepend. by apply first_at_app. }
  unfold extractSystemPrompt. rewrite Hi, Hj.
  rewrite !bool_decide_eq_false_2 by lia. f_equal.
  replace (Z.of_nat (length pre) + jslength SYSTEM_PROMPT_START_MARKER)
    with (Z.of_nat (length pre + 15)) by jslia.
  rewrite slice_nat.
  - rewrite Hw.
    replace (length pre + 15)%nat with (length (pre ++ SYSTEM_PROMPT_START_MARKER) + 0)%nat
      by (rewrite length_app; simpl; lia).
    rewrite drop_app_add. simpl drop. rewrite <-!app_assoc.
    replace (_ - _)%nat with (length content) by (rewrite length_app; simpl; lia).
    rewrite drop_0. by rewrite take_app_length.
  - rewrite Hw, !length_app. simpl. lia.
  - rewrite Hw, !length_app. simpl. lia.
Qed.

Lemma first_at_app_inv needle s t p i :
  first_at needle (s ++ t) p i → (i + length needle ≤ length s)%nat →
  first_at needle s p i.
Proof.
  intros ([Hi1 _] & Hpre & Hmin) Hfit. repeat split; [done|lia| |].
  - by apply (prefix_drop_app needle s t i) in Hpre.
  - intros j Hj Hpre'. apply (Hmin j Hj). apply prefix_drop_app; [lia|done].
Qed.

(** X5. Once an end marker has come before any start marker, the server list
    is never parsed, however the buffer goes on. *)
Lemma parseMCPServers_end_first raw t :
  indexOf raw MCP_SERVERS_END_MARKER 0 ≠ -1 →
  indexOf raw MCP_SERVERS_START_MARKER 0 = -1 ∨
  indexOf raw MCP_SERVERS_END_MARKER 0 ≤ indexOf raw MCP_SERVERS_START_MARKER 0 →
  parseMCPServers (raw ++ t) = None.
Proof.
  intros He Hs. apply parseMCPServers_None.
  pose proof (indexOf_found _ _ _ _ eq_refl He) as (? & Hfit & _).
  rewrite (indexOf_app_Z raw t _ 0 _ ltac:(jslia) eq_refl He).
  destruct (decide (indexOf (raw ++ t) MCP_SERVERS_START_MARKER 0 = -1)) as [|Hs'];
    [by left|].
  right. right.
  destruct (decide (indexOf raw MCP_SERVERS_END_MARKER 0
                    ≤ indexOf (raw ++ t) MCP_SERVERS_START_MARKER 0)) as [|Hlt]; [done|].
  exfalso.
  pose proof (indexOf_found _ _ _ _ eq_refl Hs') as (? & _ & Hfirst).
  rewrite clamp_0 in Hfirst. apply first_at_app_inv in Hfirst; [|jslia].
  rewrite <-(clamp_0 raw) in Hfirst. apply indexOf_first in Hfirst.
  destruct Hs as [Hs|Hs]; rewrite Hfirst in Hs; lia.
Qed.
End marker_claims.

(** C2. End-sentinel positioning. [extractSystemPrompt] searches for its end
    marker from the end of its start marker on, and [parseMCPServers] does
    not: it takes the first end marker of the whole buffer. On a buffer
    where an end marker precedes the start marker and a complete
    start-to-end section follows, the server list is never recognized
    ([null]), while the system prompt on the same shape of buffer is
    closed with the value between its start marker and the later end
    marker. *)
Theorem parseMCPServers_misses_later_end :
  parseMCPServers
    (MCP_SERVERS_END_MARKER ++ MCP_SERVERS_START_MARKER
       ++ [LF] ++ js "aws-docs" ++ [LF] ++ MCP_SERVERS_END_MARKER) = None ∧
  parseMCPServers
    (MCP_SERVERS_START_MARKER ++ [LF] ++ js "aws-docs" ++ [LF] ++ MCP_SERVERS_END_MARKER)
    = Some [js "aws-docs"] ∧
  extractSystemPrompt
    (SYSTEM_PROMPT_END_MARKER ++ SYSTEM_PROMPT_START_MARKER
       ++ js "Be kind." ++ SYSTEM_PROMPT_END_MARKER) = js "Be kind.".
Proof. by vm_compute. Qed.

(** C3. Under monotonic growth the stored prompt can differ from the
    one-shot extraction: the end marker arrives split over two chunks
    around an empty prompt. On the final buffer the field is closed with
    the empty value, which is what the call resolves to; but the loop
    stores a prompt only when it is not empty, so the state keeps the open
    value streamed before, a fragment of the end marker. *)
Theorem closed_empty_prompt_keeps_fragment :
  let texts := [js "<SYSTEM_PROMPT></SYS"; js "TEM_PROMPT>"] in
  let w := @run parse_text_object initial_world
             (Generate :: (Chunk 0 <$> (text_object <$> texts)) ++ [StreamEnd 0]) in
  systemPromptState (concat texts) = closed ∧
  extractSystemPrompt (concat texts) = [] ∧
  generatedPrompt (feed initial_hook texts).1 = js "</SYS" ∧
  generatedPrompt (hook w) = js "</SYS" ∧
  calls w = [{| rawOutput := concat texts; returned := Some [] |}].
Proof. by vm_compute. Qed.

(** X26. What holds of the two fields when the texts of a growing buffer
    are fed in sequence: the buffer is their concatenation; when the server
    list parses from the final buffer in one shot, the stored list is that
    list; when the one-shot extraction of the system prompt from the final
    buffer is not empty, the stored prompt is that value; and once a field
    is closed it stays closed on every longer buffer, with the same
    extracted value and the same stored value. *)
Theorem marker_fields_under_growth (h0 : Hook) (texts more : list jsstring) :
  let h := (feed h0 texts).1 in
  let raw := concat texts in
  let h' := (feed h0 (texts ++ more)).1 in
  let raw' := concat (texts ++ more) in
  (feed h0 texts).2 = raw ∧
  (∀ servers, parseMCPServers raw = Some servers → suggestedMCPServers h = servers) ∧
  (extractSystemPrompt raw ≠ [] → generatedPrompt h = extractSystemPrompt raw) ∧
  (∀ servers, parseMCPServers raw = Some servers →
     parseMCPServers raw' = Some servers ∧ suggestedMCPServers h' = servers) ∧
  (systemPromptState raw = closed →
     systemPromptState raw' = closed ∧
     extractSystemPrompt raw' = extractSystemPrompt raw ∧
     generatedPrompt h' = generatedPrompt h).
Proof.
  intros h raw h' raw'.
  destruct (feed_inv h0 texts) as [Hservers Hprompt]. fold h raw in Hservers, Hprompt.
  assert ((feed h0 texts).2 = raw) as Hraw by apply (feed_from_raw _ [] texts).
  assert (∀ servers, parseMCPServers raw = Some servers →
            mcpServersParsedRef h = true ∧ suggestedMCPServers h = servers) as Hcached.
  { intros servers Hs. unfold servers_inv in Hservers.
    destruct (mcpServersParsedRef h); [|destruct Hservers; congruence].
    split; [done|]. congruence. }
  assert (raw' = raw ++ concat more) as Hraw' by apply concat_app.
  assert (h' = (feed_from h raw more).1) as Hh'.
  { unfold h'. rewrite feed_feed_from, feed_from_app, <-feed_feed_from.
    by rewrite Hraw. }
  split; [done|]. split; [intros servers Hs; by apply Hcached|].
  split; [intros Hne; apply Hprompt; by left|]. split.
  - intros servers Hs. rewrite Hraw'. split; [by apply parseMCPServers_app|].
    destruct (Hcached _ Hs) as [Hp <-]. rewrite Hh'.
    by apply feed_from_servers_cached.
  - intros Hc. rewrite Hraw'.
    destruct (systemPrompt_closed_app raw (concat more) Hc) as [-> ->].
    split; [done|]. split; [done|]. rewrite Hh'.
    apply feed_from_prompt_closed; [done|]. intros Hne. apply Hprompt. by left.
Qed.

Lemma marker_fields_under_growth_witness :
  let texts := [js "<SELECTED_MCP_SERVERS>" ++ [LF] ++ js "aws-docs" ++ [LF] ++ js "</SELECTED";
                js "_MCP_SERVERS><SYSTEM_PROMPT>Be kind.</SYSTEM";
                js "_PROMPT>"] in
  let more := [js " trailing"; js " text"] in
  suggestedMCPServers (feed initial_hook texts).1 = [js "aws-docs"] ∧
  generatedPrompt (feed initial_hook texts).1 = js "Be kind." ∧
  suggestedMCPServers (feed initial_hook (texts ++ more)).1 = [js "aws-docs"] ∧
  generatedPrompt (feed initial_hook (texts ++ more)).1
  = generatedPrompt (feed initial_hook texts).1.
Proof.
  intros texts more.
  destruct (marker_fields_under_growth initial_hook texts more)
    as (_ & Hs & Hp & Hs' & Hp').
  split; [apply Hs; by vm_compute|].
  split; [rewrite Hp; by vm_compute|].
  split; [apply (Hs' [js "aws-docs"]); by vm_compute|].
  apply Hp'. by vm_compute.
Defined.

(** C6, as stated, fails on the server list: its start marker has been
    seen, its end marker never arrives, the open value promised is
    ["aws-docs"] left-trimmed, and the consumer receives nothing: the
    parser answers [null] and the suggested list stays empty. *)
Lemma open_server_list_not_surfaced :
  let raw := MCP_SERVERS_START_MARKER ++ [LF] ++ js "aws-docs" in
  indexOf raw MCP_SERVERS_START_MARKER 0 ≠ -1 ∧
  indexOf raw MCP_SERVERS_END_MARKER 0 = -1 ∧
  trimStart (slice_from raw (indexOf raw MCP_SERVERS_START_MARKER 0
                             + jslength MCP_SERVERS_START_MARKER)) = js "aws-docs" ∧
  parseMCPServers raw = None ∧
  suggestedMCPServers (feed initial_hook [raw]).1 = [] ∧
  mcpServersParsedRef (feed initial_hook [raw]).1 = false.
Proof. by vm_compute. Qed.

(** C6, amended. At the end of a stream, however it was cut into texts:
    a system prompt whose start marker has been seen and whose end marker
    has not arrived after it is surfaced as the substring from the end of
    the start marker to the end of the buffer, left-trimmed only, both in
    the state and in the extractor's result; a server list whose start
    marker has been seen and whose end marker never arrived is not
    surfaced at all (the parser answers [null], the list stays empty and
    unparsed); neither is an error. *)
Theorem open_field_surfacing (h0 : Hook) (texts : list jsstring) :
  let h := (feed h0 texts).1 in
  let raw := concat texts in
  (systemPromptState raw = open →
     let value := trimStart
                    (slice_from raw (indexOf raw SYSTEM_PROMPT_START_MARKER 0
                                     + jslength SYSTEM_PROMPT_START_MARKER)) in
     generatedPrompt h = value ∧ extractSystemPrompt raw = value) ∧
  (indexOf raw MCP_SERVERS_START_MARKER 0 ≠ -1 →
   indexOf raw MCP_SERVERS_END_MARKER 0 = -1 →
     parseMCPServers raw = None ∧ suggestedMCPServers h = [] ∧
     mcpServersParsedRef h = false) ∧
  error h = None.
Proof.
  intros h raw. destruct (feed_inv h0 texts) as [Hservers Hprompt].
  fold h raw in Hservers, Hprompt. split; [|split].
  - intros Ho value. unfold value. rewrite <-(extractSystemPrompt_open _ Ho).
    split; [|done]. apply Hprompt. right. congruence.
  - intros _ He.
    assert (parseMCPServers raw = None) as Hn by (apply parseMCPServers_None; auto).
    unfold servers_inv in Hservers. destruct (mcpServersParsedRef h); [congruence|].
    by destruct Hservers.
  - unfold h. rewrite feed_feed_from.
    by destruct (feed_from_kept (generate_begin h0) [] texts) as [-> _].
Qed.

Lemma open_field_surfacing_witness :
  let texts := [js "<SELECTED_MCP_SERVERS>" ++ [LF] ++ js "aws";
                js "-docs<SYSTEM_PROMPT>  Be ki"; js "nd. "] in
  generatedPrompt (feed initial_hook texts).1 = js "Be kind. " ∧
  suggestedMCPServers (feed initial_hook texts).1 = [].
Proof.
  intros texts. destruct (open_field_surfacing initial_hook texts) as (Hp & Hs & _). split.
  - destruct Hp as [-> _]; by vm_compute.
  - destruct Hs as (_ & -> & _); by vm_compute.
Defined.

(** ** ChunkDecoder *)

Section decoder.
Context `{JsonParse}.
Implicit Types (line : jsstring) (lines : list jsstring).

(** The loop of [parseStreamChunk] keeps, in order, what parses. *)
Lemma push_parsed_omap (results : list Payload) lines :
  foldl (λ results line,
           match JSON_parse line with
           | Some payload => results ++ [payload]
           | None => results
           end) results lines
  = results ++ omap JSON_parse lines.
Proof.
  revert results. induction lines as [|line lines IH]; intros results; csimpl.
  - by rewrite app_nil_r.
  - rewrite IH. destruct (JSON_parse line); [|done]. by rewrite <-app_assoc.
Qed.

Lemma split_no_sep sep line : sep ∉ line → split sep line = [line].
Proof.
  induction line as [|c line IH]; [done|]. intros [Hc Hn]%not_elem_of_cons. simpl.
  rewrite decide_False by done. by rewrite IH.
Qed.

Lemma split_app_sep sep line rest :
  sep ∉ line → split sep (line ++ sep :: rest) = line :: split sep rest.
Proof.
  induction line as [|c line IH]; simpl.
  - intros _. by rewrite decide_True.
  - intros [Hc Hn]%not_elem_of_cons. rewrite decide_False by done. by rewrite IH.
Qed.

(** [split] undoes [join] on lines that hold no separator. *)
Lemma split_join sep lines :
  Forall (λ line, sep ∉ line) lines → lines ≠ [] →
  split sep (join [sep] lines) = lines.
Proof.
  induction 1 as [|line lines Hline Hlines IH]; [done|]. intros _.
  destruct lines as [|line' lines]; simpl.
  - by apply split_no_sep.
  - rewrite split_app_sep by done. f_equal. by apply IH.
Qed.

Lemma omap_filter_nonblank lines :
  (∀ line event, JSON_parse line = Some event → trim line ≠ []) →
  omap JSON_parse (filter (λ line, truthy (trim line)) lines) = omap JSON_parse lines.
Proof.
  intros Hblank. induction lines as [|line lines IH]; [done|].
  rewrite filter_cons. destruct (decide _) as [Ht|Ht]; csimpl.
  - by rewrite IH.
  - rewrite IH. destruct (JSON_parse line) as [event|] eqn:Hp; [|done].
    apply Hblank in Hp. apply truthy_true in Hp. by rewrite Hp in Ht.
Qed.

Lemma omap_all_Some lines (events : list Payload) :
  Forall2 (λ line event, JSON_parse line = Some event) lines events →
  omap JSON_parse lines = events.
Proof.
  induction 1 as [|line event lines events Hp _ IH]; csimpl; [done|].
  by rewrite Hp, IH.
Qed.
End decoder.

(** C7. ChunkDecoder. For lines that hold no newline, joined by newlines
    into one chunk, [parseStreamChunk] returns the events of exactly the
    lines that parse, in the order of the lines: a line that does not parse
    contributes nothing and changes nothing for the others, and no input
    raises. When all [N] lines parse, the result is their [N] events in
    order. The empty chunk decodes to the empty list. The parser is any
    [JSON.parse] that, as JSON requires, accepts no blank line. *)
Theorem parseStreamChunk_lines `{JsonParse} (lines : list jsstring) :
  (∀ line event, JSON_parse line = Some event → trim line ≠ []) →
  Forall (λ line, LF ∉ line) lines →
  parseStreamChunk (join [LF] lines) = omap JSON_parse lines ∧
  (∀ events, Forall2 (λ line event, JSON_parse line = Some event) lines events →
     parseStreamChunk (join [LF] lines) = events ∧ length events = length lines) ∧
  parseStreamChunk [] = [].
Proof.
  intros Hblank Hlines.
  assert (parseStreamChunk (join [LF] lines) = omap JSON_parse lines) as Hall.
  { unfold parseStreamChunk. rewrite push_parsed_omap. simpl.
    rewrite omap_filter_nonblank by done.
    destruct lines as [|line lines']; [|by rewrite split_join].
    csimpl. destruct (JSON_parse []) as [event|] eqn:Hp; [|done].
    by apply Hblank in Hp. }
  split; [done|]. split; [|done].
  intros events Hevents. split.
  - rewrite Hall. by apply omap_all_Some.
  - symmetry. by eapply Forall2_length.
Qed.

Lemma parse_text_object_nonblank line event :
  parse_text_object line = Some event → trim line ≠ [].
Proof.
  unfold parse_text_object. case_bool_decide as Hline; simpl; [|done].
  intros _. rewrite Hline. set (body := take _ _). clearbody body.
  unfold trim, trimEnd. simpl.
  rewrite !reverse_cons, reverse_app. simpl.
  intros Hnil. apply (f_equal length) in Hnil.
  rewrite length_reverse in Hnil. simpl in Hnil. lia.
Qed.

Lemma parseStreamChunk_lines_witness :
  @parseStreamChunk parse_text_object
    (text_object (js "ab") ++ [LF] ++ js "{bad" ++ [LF] ++ [LF] ++ text_object (js "cd"))
  = [ payload_value {| chunk_text := Some (js "ab") |};
      payload_value {| chunk_text := Some (js "cd") |} ].
Proof.
  destruct (@parseStreamChunk_lines parse_text_object
              [text_object (js "ab"); js "{bad"; []; text_object (js "cd")])
    as (Hall & _ & _).
  - apply parse_text_object_nonblank.
  - compute_done.
  - exact Hall.
Defined.

(** ** TranscriptReconciler *)

Section reconciler.
Implicit Types (seg old newSegment : TranscriptionSegment)
               (prev merged updates : list TranscriptionSegment).

Lemma same_key_segment_key a b : same_key a b ↔ segment_key a = segment_key b.
Proof. unfold same_key, segment_key. split; [intros [-> ->]; done|intros [= -> ->]; done]. Qed.

(** Upserting an existing key writes over the first entry that has it. *)
Lemma upsert_existing newSegment prev i old :
  list_find (λ seg, same_key seg newSegment) prev = Some (i, old) →
  updateTranscriptionSegments newSegment prev = <[i := newSegment]> prev ∧
  segment_key <$> updateTranscriptionSegments newSegment prev = segment_key <$> prev.
Proof.
  intros Hfind. unfold updateTranscriptionSegments. rewrite Hfind. split; [done|].
  apply list_find_Some in Hfind as (Hi & Hkey & _).
  rewrite list_fmap_insert. apply list_insert_id.
  rewrite list_lookup_fmap, Hi. simpl. f_equal.
  by apply same_key_segment_key.
Qed.

(** Upserting a new key appends. *)
Lemma upsert_fresh newSegment prev :
  list_find (λ seg, same_key seg newSegment) prev = None →
  updateTranscriptionSegments newSegment prev = prev ++ [newSegment] ∧
  segment_key newSegment ∉ segment_key <$> prev.
Proof.
  intros Hfind. unfold updateTranscriptionSegments. rewrite Hfind. split; [done|].
  apply list_find_None in Hfind. intros (seg & Hkey & Hin)%list_elem_of_fmap.
  rewrite Forall_forall in Hfind. apply (Hfind seg Hin).
  by apply same_key_segment_key.
Qed.

Lemma upsert_NoDup newSegment prev :
  NoDup (segment_key <$> prev) →
  NoDup (segment_key <$> updateTranscriptionSegments newSegment prev).
Proof.
  intros Hnd.
  destruct (list_find (λ seg, same_key seg newSegment) prev) as [[i old]|] eqn:Hfind.
  - by destruct (upsert_existing _ _ _ _ Hfind) as [_ ->].
  - destruct (upsert_fresh _ _ Hfind) as [-> Hfresh].
    rewrite fmap_app. apply NoDup_app. split; [done|]. split.
    + intros k Hk Hk'. apply list_elem_of_singleton in Hk'. by subst k.
    + apply NoDup_singleton.
Qed.

Lemma upserts_snoc updates newSegment :
  upserts (updates ++ [newSegment]) =
    updateTranscriptionSegments newSegment (upserts updates).
Proof. unfold upserts. by rewrite foldl_app. Qed.

Lemma upserts_NoDup updates : NoDup (segment_key <$> upserts updates).
Proof.
  induction updates as [|newSegment updates IH] using rev_ind.
  - apply NoDup_nil_2.
  - rewrite upserts_snoc. by apply upsert_NoDup.
Qed.

(** With one entry per key, the entry found is the entry with the key. *)
Lemma find_unique_key newSegment prev i old :
  NoDup (segment_key <$> prev) →
  prev !! i = Some old → same_key old newSegment →
  list_find (λ seg, same_key seg newSegment) prev = Some (i, old).
Proof.
  intros Hnd Hi Hkey. apply list_find_Some. split; [done|]. split; [done|].
  intros j y Hj Hlt Hkey'.
  assert (i = j); [|lia].
  apply (NoDup_lookup _ i j (segment_key old) Hnd).
  - by rewrite list_lookup_fmap, Hi.
  - rewrite list_lookup_fmap, Hj. simpl. f_equal.
    apply same_key_segment_key in Hkey, Hkey'. congruence.
Qed.
End reconciler.

(** C4. De-duplication. After any sequence of upserts, starting from the
    empty collection, no two entries of the merged collection share a
    [(resultId, source)] key. Upserting a segment whose key is held by the
    entry at index [i] overwrites that entry in place: the result is the
    collection with index [i] set to the new segment, of the same length,
    and its entry with that key is the new segment. Upserting a segment
    whose key no entry has appends it. So a partial segment followed by
    the final segment with its key leaves one entry, the final one. *)
Theorem transcript_deduplication
    (updates : list TranscriptionSegment) (newSegment : TranscriptionSegment) :
  let merged := upserts updates in
  NoDup (segment_key <$> merged) ∧
  (∀ i old, merged !! i = Some old → same_key old newSegment →
     upserts (updates ++ [newSegment]) = <[i := newSegment]> merged ∧
     length (upserts (updates ++ [newSegment])) = length merged ∧
     upserts (updates ++ [newSegment]) !! i = Some newSegment) ∧
  ((∀ old, old ∈ merged → ¬ same_key old newSegment) →
     upserts (updates ++ [newSegment]) = merged ++ [newSegment]) ∧
  (∀ partial, same_key partial newSegment →
     upserts [partial; newSegment] = [newSegment]).
Proof.
  intros merged. pose proof (upserts_NoDup updates) as Hnd. fold merged in Hnd.
  split; [done|]. rewrite upserts_snoc. fold merged. split; [|split].
  - intros i old Hi Hkey.
    pose proof (find_unique_key _ _ _ _ Hnd Hi Hkey) as Hfind.
    destruct (upsert_existing _ _ _ _ Hfind) as [-> _].
    split; [done|]. split; [by rewrite length_insert|].
    apply list_lookup_insert_eq. by eapply lookup_lt_Some.
  - intros Hfresh. apply upsert_fresh. apply list_find_None, Forall_forall.
    intros old Hin. by apply Hfresh.
  - intros partial Hkey. unfold upserts. simpl.
    unfold updateTranscriptionSegments at 1. simpl.
    unfold updateTranscriptionSegments. simpl. by rewrite decide_True.
Qed.

Lemma transcript_deduplication_witness :
  upserts [r1_partial; r1_final] = [r1_final].
Proof.
  destruct (transcript_deduplication [r1_partial] r1_final) as (_ & Hreplace & _ & _).
  destruct (Hreplace 0%nat r1_partial) as (-> & _ & _).
  - reflexivity.
  - split; reflexivity.
  - reflexivity.
Defined.

(** *** Display order *)

(** A stable insertion sort, for any comparator whose "not greater"
    relation is total and transitive. *)
Section array_sort.
Context {A : Type} (comparefn : A → A → Qc).

Hypothesis not_after_total : ∀ x y, (0 < comparefn x y)%Qc → not_after comparefn y x.
Hypothesis not_after_trans : ∀ x y z, not_after comparefn x y → not_after comparefn y z → not_after comparefn x z.

Lemma sort_insert_Permutation x l : sort_insert comparefn x l ≡ₚ x :: l.
Proof.
  induction l as [|y l IH]; simpl; [done|].
  case_decide; [|done]. rewrite IH. apply Permutation_swap.
Qed.

Lemma array_sort_Permutation l : array_sort comparefn l ≡ₚ l.
Proof.
  induction l as [|x l IH]; simpl; [done|].
  rewrite sort_insert_Permutation. by f_equiv.
Qed.

Lemma sort_insert_sorted x l :
  StronglySorted (not_after comparefn) l → StronglySorted (not_after comparefn) (sort_insert comparefn x l).
Proof.
  induction l as [|y l IH]; simpl.
  - intros _. repeat constructor.
  - intros [Hy Hl]%StronglySorted_cons. case_decide as Hxy.
    + apply StronglySorted_cons. split; [|by apply IH].
      rewrite sort_insert_Permutation. apply Forall_cons_2; [|done].
      by apply not_after_total.
    + apply StronglySorted_cons. split; [|by apply StronglySorted_cons].
      apply Forall_cons_2; [done|].
      eapply Forall_impl; [exact Hy|]. intros z Hz. by eapply not_after_trans.
Qed.

Lemma array_sort_sorted l : StronglySorted (not_after comparefn) (array_sort comparefn l).
Proof.
  induction l as [|x l IH]; simpl; [constructor|]. by apply sort_insert_sorted.
Qed.

(** Stability: the elements of a class that the comparator does not
    tell apart keep their order. *)
Context (P : A → Prop) `{∀ x, Decision (P x)}.
Hypothesis P_tied : ∀ x y, P x → P y → not_after comparefn x y.

Lemma sort_insert_stable x l :
  filter P (sort_insert comparefn x l) = filter P (x :: l).
Proof.
  induction l as [|y l IH]; simpl; [done|].
  case_decide as Hxy; [|done].
  rewrite (filter_cons _ y), IH, !filter_cons.
  destruct (decide (P x)), (decide (P y)); try done.
  destruct (P_tied x y); done.
Qed.

Lemma array_sort_stable l : filter P (array_sort comparefn l) = filter P l.
Proof.
  induction l as [|x l IH]; simpl; [done|].
  by rewrite sort_insert_stable, !filter_cons, IH.
Qed.
End array_sort.

Lemma StronglySorted_weaken {A} (R R' : relation A) l :
  (∀ x y, R x y → R' x y) → StronglySorted R l → StronglySorted R' l.
Proof.
  intros HR. induction 1 as [|x l _ IH Hx]; constructor; [done|].
  eapply Forall_impl; [exact Hx|]. intros y. apply HR.
Qed.

Section display_order.
Implicit Types (a b c : TranscriptionSegment).

Lemma compareSegments_pos a b :
  (0 < compareSegments a b)%Qc ↔
  sessionId b < sessionId a ∨ (sessionId a = sessionId b ∧ (startTime b < startTime a)%Qc).
Proof.
  unfold compareSegments. case_decide as Hs.
  - rewrite <-Z2Qc_inj_0, <-Z2Qc_inj_lt. split; [lia|]. intros [?|[? _]]; [lia|done].
  - unfold Qcminus. rewrite <-Qclt_minus_iff. split; [auto|].
    intros [?|[_ ?]]; [lia|done].
Qed.

Lemma compareSegments_not_pos a b :
  not_after compareSegments a b ↔ segment_le a b.
Proof.
  unfold not_after. rewrite compareSegments_pos. unfold segment_le. split.
  - intros Hn. destruct (decide (sessionId a < sessionId b)) as [|Hlt]; [by left|].
    right. assert (sessionId a = sessionId b) as Heq.
    { destruct (decide (sessionId b < sessionId a)); [|lia]. destruct Hn. by left. }
    split; [done|]. apply Qcle_ngt. intros Hlt'. apply Hn. by right.
  - intros [Hlt|[Heq Hle]] [Hgt|[Heq' Hgt]]; try lia. by apply Qcle_ngt in Hle.
Qed.

Lemma segment_le_total a b : ¬ segment_le a b → segment_le b a.
Proof.
  rewrite <-compareSegments_not_pos. unfold not_after. intros Hn%dec_stable.
  apply compareSegments_pos in Hn as [?|[? ?]]; [by left|].
  right. split; [done|]. by apply Qclt_le_weak.
Qed.

Lemma segment_le_trans a b c : segment_le a b → segment_le b c → segment_le a c.
Proof.
  intros [?|[? ?]] [?|[? ?]]; [left; lia|left; lia|left; lia|].
  right. split; [lia|]. by eapply Qcle_trans.
Qed.
End display_order.

(** The list view shows the sorted sequence, segment by segment. *)
Lemma with_boundaries_segments prev sorted :
  (with_boundaries prev sorted).*2 = sorted.
Proof.
  revert prev. induction sorted as [|segment rest IH]; intros prev; [done|].
  simpl. by rewrite IH.
Qed.

(** C5. Display order. The rendered sequence (the one the text is built
    from, which is also the sequence of the list view) holds the segments
    of the merged collection, each once; it is sorted by [sessionId]
    ascending and, within a session, by [startTime] ascending; segments
    with the same [sessionId] and [startTime] keep the order they have in
    the collection; and a segment of an earlier session comes before a
    segment of a later session whatever their start times and their order
    in the collection. *)
Theorem sortedSegments_display_order (segments : list TranscriptionSegment) :
  (renderedSegments segments).*2 = sortedSegments segments ∧
  sortedSegments segments ≡ₚ segments ∧
  StronglySorted segment_le (sortedSegments segments) ∧
  (∀ session time,
     filter (λ seg, sessionId seg = session ∧ startTime seg = time) (sortedSegments segments)
     = filter (λ seg, sessionId seg = session ∧ startTime seg = time) segments) ∧
  (∀ a b, sessionId a < sessionId b →
     sortedSegments [a; b] = [a; b] ∧ sortedSegments [b; a] = [a; b]).
Proof.
  split; [apply with_boundaries_segments|].
  split; [apply array_sort_Permutation|]. split; [|split].
  - eapply StronglySorted_weaken; [|apply array_sort_sorted].
    + intros a b. apply compareSegments_not_pos.
    + intros a b Hab. apply compareSegments_not_pos, segment_le_total.
      rewrite <-compareSegments_not_pos. by intros Hn.
    + intros a b c. rewrite !compareSegments_not_pos. apply segment_le_trans.
  - intros session time. apply array_sort_stable.
    intros a b [Ha Ha'] [Hb Hb']. apply compareSegments_not_pos. right.
    split; [congruence|]. rewrite Ha', Hb'. apply Qcle_refl.
  - intros a b Hab. unfold sortedSegments, array_sort. simpl.
    rewrite (decide_False (P := (0 < compareSegments a b)%Qc)).
    2:{ apply (compareSegments_not_pos a b). by left. }
    rewrite (decide_True (P := (0 < compareSegments b a)%Qc)); [done|].
    apply compareSegments_pos. by left.
Qed.

Lemma sortedSegments_display_order_witness :
  sortedSegments [later_session; earlier_session] = [earlier_session; later_session] ∧
  @transcriptionText exact_numbers (λ _, None) [later_session; earlier_session]
  = js "[00:05] first" ++ [LF] ++ js "[00:01] second".
Proof.
  destruct (sortedSegments_display_order [later_session; earlier_session])
    as (_ & _ & _ & _ & Horder).
  destruct (Horder earlier_session later_session) as [_ Hswap].
  - reflexivity.
  - split; [exact Hswap|]. unfold transcriptionText. rewrite Hswap. by vm_compute.
Defined.

(** C9. Clear. [handleClear] empties the merged collection and resets the
    session id to 0; what is rendered next holds no segment: the sorted
    sequence and the list view are empty, the text is the empty string, and
    the two source effects, run on the cleared buffers, add nothing back. *)
Theorem handleClear_empties `{NumberOps} (st : Transcription)
    (speakerMapping : jsstring → option jsstring) :
  let st' := handleClear st in
  transcriptionSegments st' = [] ∧
  currentSessionId st' = 0 ∧
  sortedSegments (transcriptionSegments st') = [] ∧
  renderedSegments (transcriptionSegments st') = [] ∧
  transcriptionText speakerMapping (transcriptionSegments st') = [] ∧
  panelHasTranscriptText speakerMapping st' = false ∧
  processScreen (processMicrophone st') = st'.
Proof.
  intros st'. repeat split.
  unfold processScreen, processMicrophone. simpl. by destruct (enableScreenAudio st).
Qed.

(** ** RegenerationScheduler *)

Section scheduler.
Implicit Types (st : Minutes) (ev : MinutesEvent) (t : jsstring).

Lemma generationEffect_calls st t :
  CallGenerateMinutes t ∈ (generationEffect st).2 →
  minutesLoading st = false ∧ shouldGenerateRef st = true ∧ autoGenerate st = true ∧
  t = transcriptText st ∧ trim t ≠ [].
Proof.
  unfold generationEffect.
  destruct (shouldGenerateRef st), (autoGenerate st); simpl;
    try by intros ?%elem_of_nil.
  case_bool_decide as Hb; simpl; [|by intros ?%elem_of_nil].
  destruct (minutesLoading st); simpl; [by intros ?%elem_of_nil|].
  intros [= ->]%list_elem_of_singleton. done.
Qed.

Lemma generationEffect_transcript st :
  transcriptText (generationEffect st).1 = transcriptText st.
Proof.
  unfold generationEffect.
  destruct (_ && _); [|done]. by destruct (negb _).
Qed.

Lemma handleManualGeneration_calls st t :
  CallGenerateMinutes t ∈ (handleManualGeneration st).2 →
  minutesLoading st = false ∧ t = transcriptText st ∧ trim t ≠ [].
Proof.
  unfold handleManualGeneration, hasTranscriptText.
  destruct (_ && _); simpl.
  { intros Hin%list_elem_of_singleton. done. }
  case_bool_decide as Hb; simpl; [|by intros ?%elem_of_nil].
  destruct (minutesLoading st); simpl; [by intros ?%elem_of_nil|].
  intros [= ->]%list_elem_of_singleton. done.
Qed.

Lemma handleManualGeneration_state st :
  transcriptText (handleManualGeneration st).1 = transcriptText st ∧
  (minutesLoading st = true → (handleManualGeneration st).1 = st).
Proof.
  unfold handleManualGeneration.
  destruct (_ && _); [done|]. destruct (hasTranscriptText st); simpl; [|done].
  by destruct (minutesLoading st).
Qed.

Lemma clickGenerate_calls st t :
  CallGenerateMinutes t ∈ (clickGenerate st).2 →
  minutesLoading st = false ∧ t = transcriptText st ∧ trim t ≠ [].
Proof.
  unfold clickGenerate. destruct (generateDisabled st); [by intros ?%elem_of_nil|].
  apply handleManualGeneration_calls.
Qed.

Lemma clickGenerate_state st :
  transcriptText (clickGenerate st).1 = transcriptText st ∧
  (minutesLoading st = true → (clickGenerate st).1 = st).
Proof.
  unfold clickGenerate. destruct (generateDisabled st); [done|].
  apply handleManualGeneration_state.
Qed.

(** A blank transcript disables the generate button. *)
Lemma clickGenerate_blank st :
  trim (transcriptText st) = [] → clickGenerate st = (st, []).
Proof.
  intros Hblank. unfold clickGenerate, generateDisabled, hasTranscriptText.
  by rewrite (bool_decide_eq_false_2 (trim (transcriptText st) ≠ [])) by (by intros ?).
Qed.

Lemma statusCallback_calls status t : CallGenerateMinutes t ∉ statusCallback status.
Proof.
  unfold statusCallback. repeat case_bool_decide.
  - by intros ?%list_elem_of_singleton.
  - by intros ?%list_elem_of_singleton.
  - by intros ?%elem_of_nil.
Qed.

Lemma countdownSetup_kept st :
  transcriptText (countdownSetup st) = transcriptText st ∧
  minutesLoading (countdownSetup st) = minutesLoading st.
Proof. unfold countdownSetup. simpl. by destruct (_ || _). Qed.

Lemma intervalTick_kept st :
  transcriptText (intervalTick st) = transcriptText st ∧
  minutesLoading (intervalTick st) = minutesLoading st.
Proof.
  unfold intervalTick. destruct (countdownIntervalRef st); [|done].
  by case_bool_decide.
Qed.

Lemma minutes_step_calls st ev t :
  CallGenerateMinutes t ∈ (minutes_step st ev).2 →
  CallGenerateMinutes t ∈ (handle st ev).2 ∨
  CallGenerateMinutes t ∈ (generationEffect (before_effects st ev)).2.
Proof.
  unfold minutes_step, before_effects. destruct (handle st ev) as [st1 acts1]. simpl.
  generalize (if bool_decide (setup_deps st1 ≠ setup_deps st)
              then countdownSetup st1 else st1).
  intros st2. case_bool_decide.
  - destruct (generationEffect st2) as [st3 acts2]. simpl.
    intros [?|?]%elem_of_app; auto.
  - simpl. rewrite app_nil_r. auto.
Qed.

Lemma minutes_step_transcript st ev :
  transcriptText (minutes_step st ev).1 = transcriptText (before_effects st ev).
Proof.
  unfold minutes_step, before_effects. destruct (handle st ev) as [st1 acts1]. simpl.
  generalize (if bool_decide (setup_deps st1 ≠ setup_deps st)
              then countdownSetup st1 else st1).
  intros st2. case_bool_decide; [|done].
  rewrite <-(generationEffect_transcript st2). by destruct (generationEffect st2).
Qed.

Lemma before_effects_loading st ev :
  ev ≠ Completed → minutesLoading st = true →
  minutesLoading (before_effects st ev) = true.
Proof.
  intros Hev Hl. unfold before_effects.
  assert (minutesLoading (handle st ev).1 = true) as Hl'.
  { destruct ev; simpl; try done.
    - by destruct (intervalTick_kept st) as [_ ->].
    - by destruct (clickGenerate_state st) as [_ ->]. }
  case_bool_decide; [|done]. by destruct (countdownSetup_kept (handle st ev).1) as [_ ->].
Qed.
End scheduler.

(** C1, as stated, fails: the first fire starts a generation; the second
    fire arrives while that call is in flight and issues no call; and when
    the call completes no further call is issued: the second fire was not
    recorded, and the countdown starts over. One call in all, where the
    claim has two. *)
Lemma fire_while_pending_is_lost :
  let first_fire := warm_up ++ replicate 60 Tick in
  let second_fire := first_fire ++ replicate 60 Tick in
  (minutes_run initial_minutes first_fire).2 = [CallGenerateMinutes (js "hello")] ∧
  minutesLoading (minutes_run initial_minutes first_fire).1 = true ∧
  (minutes_run initial_minutes second_fire).2 = [CallGenerateMinutes (js "hello")] ∧
  minutesLoading (minutes_run initial_minutes second_fire).1 = true ∧
  shouldGenerateRef (minutes_run initial_minutes second_fire).1 = false ∧
  (minutes_run initial_minutes (second_fire ++ [Completed])).2
    = [CallGenerateMinutes (js "hello")] ∧
  shouldGenerateRef (minutes_run initial_minutes (second_fire ++ [Completed])).1 = false ∧
  countdownSeconds (minutes_run initial_minutes (second_fire ++ [Completed])).1 = 60.
Proof. by vm_compute. Qed.

(** C1, amended. While a generation call is in flight, no event other than
    its completion issues a generation call, of any origin. A countdown
    fire that arrives meanwhile, with auto-generation on and a transcript
    that has text, is discarded: the tick issues nothing, the fire flag is
    cleared and the countdown restarts from the full cadence; the
    completion of the call in flight then issues nothing either, so the
    next scheduled generation waits for the next fire. *)
Theorem fire_while_pending_is_discarded (st : Minutes) (totalSeconds : Z) :
  minutesLoading st = true →
  (∀ ev t, ev ≠ Completed → CallGenerateMinutes t ∉ (minutes_step st ev).2) ∧
  (autoGenerate st = true → trim (transcriptText st) ≠ [] →
   countdownIntervalRef st = Some totalSeconds →
   countdownSeconds st ≤ 1 < totalSeconds →
     let fired := (minutes_step st Tick).1 in
     (minutes_step st Tick).2 = [] ∧
     shouldGenerateRef fired = false ∧
     minutesLoading fired = true ∧
     countdownSeconds fired = totalSeconds ∧
     minutes_step fired Completed = (generationCompleted fired, [])).
Proof.
  intros Hl. split.
  - intros ev t Hev [Hin|Hin]%minutes_step_calls.
    + destruct ev; simpl in Hin; try by apply elem_of_nil in Hin.
      * by apply statusCallback_calls in Hin.
      * apply clickGenerate_calls in Hin as [? _]. congruence.
    + apply generationEffect_calls in Hin as [Hl' _].
      rewrite before_effects_loading in Hl' by done. done.
  - intros Ha Ht Hi Hc fired.
    assert (handle st Tick
            = (setCountdownSeconds totalSeconds (set_shouldGenerateRef true st), [])) as Hh.
    { unfold handle, intervalTick. rewrite Hi. by rewrite bool_decide_eq_true_2 by lia. }
    assert (minutes_step st Tick
            = (set_shouldGenerateRef false
                 (setCountdownSeconds totalSeconds (set_shouldGenerateRef true st)), [])) as Hs.
    { unfold minutes_step. rewrite Hh.
      rewrite (bool_decide_eq_false_2 (setup_deps _ ≠ _)) by (by intros []).
      rewrite (bool_decide_eq_true_2 (generation_deps _ ≠ _))
        by (unfold generation_deps; cbn; intros [= ?]; lia).
      unfold generationEffect. cbn. rewrite Ha, Hl.
      by rewrite (bool_decide_eq_true_2 _ Ht). }
    unfold fired. rewrite Hs. cbn. repeat split; [done|].
    unfold minutes_step, handle.
    rewrite (bool_decide_eq_false_2 (setup_deps _ ≠ _)) by (by intros []).
    rewrite (bool_decide_eq_true_2 (generation_deps _ ≠ _))
      by (unfold generation_deps; cbn; rewrite Hl; by intros [= ?]).
    done.
Qed.

Lemma fire_while_pending_is_discarded_witness :
  let st := (minutes_run initial_minutes (warm_up ++ replicate 119 Tick)).1 in
  minutesLoading st = true ∧ countdownSeconds st = 1 ∧
  (minutes_step st Tick).2 = [] ∧
  (minutes_step (minutes_step st Tick).1 Completed).2 = [] ∧
  CallGenerateMinutes (js "hello") ∉ (minutes_step st ManualGeneration).2.
Proof.
  intros st.
  destruct (fire_while_pending_is_discarded st 60) as [Hnone Hfire]; [by vm_compute|].
  destruct Hfire as (Htick & _ & _ & _ & Hdone); [by vm_compute| |by vm_compute| |].
  - by vm_compute.
  - by vm_compute.
  - split; [by vm_compute|]. split; [by vm_compute|]. split; [exact Htick|].
    split; [by rewrite Hdone|]. by apply Hnone.
Defined.

(** C10. Empty-transcript gate. No generation call of any origin is issued
    on a transcript that is empty or all white space: every call a step
    issues, scheduled or manual, carries the transcript of the state it
    leaves, and that transcript has text. On such a transcript a scheduled
    fire changes nothing, the fire flag included, and calls nothing; and a
    manual trigger is silently ignored: the generate button is disabled, so
    the click calls nothing, raises nothing and changes nothing. *)
Theorem no_generation_on_blank_transcript (st : Minutes) (ev : MinutesEvent) :
  (∀ t, CallGenerateMinutes t ∈ (minutes_step st ev).2 →
        t = transcriptText (minutes_step st ev).1 ∧ trim t ≠ []) ∧
  (trim (transcriptText st) = [] →
     generationEffect st = (st, []) ∧
     clickGenerate st = (st, []) ∧
     minutes_step st ManualGeneration = (st, [])).
Proof.
  split.
  - intros t [Hin|Hin]%minutes_step_calls.
    + destruct ev; simpl in Hin; try by apply elem_of_nil in Hin.
      * by apply statusCallback_calls in Hin.
      * apply clickGenerate_calls in Hin as (_ & -> & Ht). split; [|done].
        rewrite minutes_step_transcript. unfold before_effects. simpl.
        destruct (clickGenerate_state st) as [Htext _].
        case_bool_decide; [|done].
        by destruct (countdownSetup_kept (clickGenerate st).1) as [-> _].
    + apply generationEffect_calls in Hin as (_ & _ & _ & -> & Ht).
      by rewrite minutes_step_transcript.
  - intros Hblank. split_and!.
    + unfold generationEffect. rewrite (bool_decide_eq_false_2 _) by (by intros ?).
      by rewrite !andb_false_r.
    + by apply clickGenerate_blank.
    + unfold minutes_step, handle. rewrite (clickGenerate_blank st Hblank).
      rewrite (bool_decide_eq_false_2 (setup_deps _ ≠ _)) by (by intros []).
      by rewrite (bool_decide_eq_false_2 (generation_deps _ ≠ _)) by (by intros []).
Qed.

Lemma no_generation_on_blank_transcript_witness :
  let st := (minutes_run initial_minutes
               ([SelectGenerationFrequency 1; SwitchAutoGenerate true;
                 SelectMinutesStyle custom; TranscriptChanged (js "  ")]
                  ++ replicate 60 Tick)).1 in
  shouldGenerateRef st = true ∧
  generationEffect st = (st, []) ∧
  minutes_step st ManualGeneration = (st, []) ∧
  (minutes_step st (TranscriptChanged (js "hello"))).2 = [CallGenerateMinutes (js "hello")].
Proof.
  intros st.
  destruct (no_generation_on_blank_transcript st ManualGeneration) as [_ Hblank].
  destruct Hblank as (Heffect & _ & Hmanual); [by vm_compute|].
  split; [by vm_compute|]. split; [exact Heffect|]. split; [exact Hmanual|].
  by vm_compute.
Defined.

(** ** Cancellation *)

Section cancellation.
Context `{JsonParse}.
Implicit Types (h : Hook) (w : World) (c : Call) (chunk : jsstring).

(** [cancel] clears the pending flag and touches no marker field. *)
Lemma cancel_fields h :
  isGenerating (cancel h) = false ∧
  generatedPrompt (cancel h) = generatedPrompt h ∧
  suggestedMCPServers (cancel h) = suggestedMCPServers h ∧
  mcpServersParsedRef (cancel h) = mcpServersParsedRef h ∧
  error (cancel h) = error h ∧
  abortControllerRef (cancel h) = abortControllerRef h.
Proof. unfold cancel. destruct (abortControllerRef h) eqn:Href; simpl; by rewrite ?Href. Qed.

(** A second [cancel] changes nothing and raises nothing. *)
Lemma cancel_twice h : cancel (cancel h) = cancel h.
Proof.
  unfold cancel. destruct (abortControllerRef h) as [ctrl|] eqn:Href; simpl.
  - rewrite Href. simpl. unfold setIsGenerating, set_controllers. simpl.
    by rewrite list_insert_insert_eq.
  - by rewrite Href.
Qed.

(** After [cancel], the controller the ref holds is aborted. *)
Lemma cancel_aborts h ctrl :
  abortControllerRef h = Some ctrl → (ctrl < length (controllers h))%nat →
  signal_aborted (cancel h) = true.
Proof.
  intros Href Hctrl. unfold signal_aborted, cancel. rewrite Href. simpl.
  rewrite Href. by rewrite list_lookup_insert_eq.
Qed.

(** X10. Within one invocation: once [cancel] has aborted the controller the
    ref holds, the next chunk makes the loop leave by [break], without
    reading the chunk: no marker field and no error is written, the
    invocation resolves to what it had extracted, and later chunks of its
    stream find no consumer. *)
Lemma cancel_stops_current_call w k c ctrl chunk :
  calls w !! k = Some c → returned c = None →
  abortControllerRef (hook w) = Some ctrl →
  (ctrl < length (controllers (hook w)))%nat →
  let w' := step (step w Cancel) (Chunk k chunk) in
  generatedPrompt (hook w') = generatedPrompt (hook w) ∧
  suggestedMCPServers (hook w') = suggestedMCPServers (hook w) ∧
  mcpServersParsedRef (hook w') = mcpServersParsedRef (hook w) ∧
  error (hook w') = error (hook w) ∧
  isGenerating (hook w') = false ∧
  calls w' !! k = Some {| rawOutput := rawOutput c;
                          returned := Some (extractSystemPrompt (rawOutput c)) |} ∧
  ∀ chunk', step w' (Chunk k chunk') = w'.
Proof.
  intros Hk Hret Href Hctrl w'.
  assert (w' = settle k c (cancel (hook w)) {| hook := cancel (hook w); calls := calls w |})
    as ->.
  { unfold w'. simpl. rewrite Hk, Hret. by rewrite (cancel_aborts _ _ Href Hctrl). }
  destruct (cancel_fields (hook w)) as (_ & ? & ? & ? & ? & _).
  assert (k < length (calls w))%nat by (by eapply lookup_lt_Some).
  unfold settle. simpl. repeat split; try done.
  - by rewrite list_lookup_insert_eq.
  - intros chunk'. simpl. by rewrite list_lookup_insert_eq.
Qed.
End cancellation.

(** C8. Cancellation. The loop reads the abort signal through the ref the
    hook shares between invocations, and [generate] stores a fresh
    controller in that ref. So when [generate] is called again after
    [cancel], before the cancelled stream has yielded its next chunk, the
    cancelled invocation reads the new controller, which is not aborted:
    it goes on consuming its stream and writes the marker fields, although
    its own controller is aborted and the pending flag had been cleared. *)
Theorem cancelled_call_resumes_after_generate :
  let stale := text_object (js "<SYSTEM_PROMPT>stale") in
  let cancelled := @run parse_text_object initial_world [Generate; Cancel] in
  let restarted := @run parse_text_object cancelled [Generate] in
  let resumed := @run parse_text_object restarted [Chunk 0 stale] in
  controllers (hook cancelled) !! 0%nat = Some true ∧
  isGenerating (hook cancelled) = false ∧
  generatedPrompt (hook restarted) = [] ∧
  generatedPrompt (hook resumed) = js "stale" ∧
  calls resumed !! 0%nat
    = Some {| rawOutput := js "<SYSTEM_PROMPT>stale"; returned := None |} ∧
  generatedPrompt
    (hook (@run parse_text_object cancelled [Chunk 0 stale])) = [].
Proof. by vm_compute. Qed.

(** * Further properties of the code *)

(** ** Trimming *)

Section trimming.
Implicit Types (s t : jsstring) (c : N).

Lemma trimStart_suffix s : ∃ ws, s = ws ++ trimStart s ∧ forallb is_ws ws = true.
Proof.
  induction s as [|c s (ws & Hs & Hws)]; [by exists []|]. simpl.
  destruct (is_ws c) eqn:Hc.
  - exists (c :: ws). simpl. rewrite Hc, Hws. split; [by f_equal|done].
  - by exists [].
Qed.

(** What [trimStart] returns is empty or starts with a character that is
    not white space. *)
Lemma trimStart_head s :
  match trimStart s with [] => True | c :: _ => is_ws c = false end.
Proof.
  induction s as [|c s IH]; [done|]. simpl. destruct (is_ws c) eqn:Hc; [done|].
  exact Hc.
Qed.

Lemma trimStart_id s :
  match s with [] => True | c :: _ => is_ws c = false end → trimStart s = s.
Proof. destruct s as [|c s]; [done|]. simpl. by intros ->. Qed.

Lemma trimStart_idem s : trimStart (trimStart s) = trimStart s.
Proof. apply trimStart_id, trimStart_head. Qed.

Lemma trimEnd_prefix s : ∃ ws, s = trimEnd s ++ ws ∧ forallb is_ws ws = true.
Proof.
  unfold trimEnd. destruct (trimStart_suffix (reverse s)) as (ws & Hs & Hws).
  exists (reverse ws). split.
  - apply (f_equal reverse) in Hs. rewrite reverse_involutive, reverse_app in Hs.
    rewrite Hs at 1. done.
  - rewrite forallb_forall in *. intros c Hc. apply Hws.
    apply list_elem_of_In, elem_of_reverse. by apply list_elem_of_In.
Qed.

Lemma trimEnd_idem s : trimEnd (trimEnd s) = trimEnd s.
Proof. unfold trimEnd. by rewrite reverse_involutive, trimStart_idem. Qed.

(** [trimEnd] keeps the first character of a string that starts with a
    character that is not white space. *)
Lemma trimEnd_head c s :
  is_ws c = false → ∃ s', trimEnd (c :: s) = c :: s'.
Proof.
  intros Hc. destruct (trimEnd_prefix (c :: s)) as (ws & Hs & Hws).
  destruct (trimEnd (c :: s)) as [|d s'] eqn:Ht.
  - simpl in Hs. subst ws. simpl in Hws. by rewrite Hc in Hws.
  - simpl in Hs. injection Hs as <- _. by exists s'.
Qed.

Lemma trim_trimStart s : trimStart (trim s) = trim s.
Proof.
  unfold trim. pose proof (trimStart_head s) as Hh.
  destruct (trimStart s) as [|c s'] eqn:Hs; [done|].
  destruct (trimEnd_head c s' Hh) as (s'' & ->). simpl. by rewrite Hh.
Qed.

Lemma trim_trimEnd s : trimEnd (trim s) = trim s.
Proof. unfold trim. apply trimEnd_idem. Qed.

(** [trim] is idempotent. *)
Lemma trim_idem s : trim (trim s) = trim s.
Proof. unfold trim at 1. by rewrite trim_trimStart, trim_trimEnd. Qed.

(** What [trim] returns is a contiguous part of its argument. *)
Lemma trim_infix s : ∃ before after, s = before ++ trim s ++ after.
Proof.
  destruct (trimStart_suffix s) as (before & Hs & _).
  destruct (trimEnd_prefix (trimStart s)) as (after & Ht & _).
  exists before, after. unfold trim. by rewrite <-Ht.
Qed.

Lemma elem_of_trim c s : c ∈ trim s → c ∈ s.
Proof.
  destruct (trim_infix s) as (before & after & Hs). intros Hc.
  rewrite Hs, !elem_of_app. auto.
Qed.

(** The pieces of [split] hold no separator. *)
Lemma split_pieces sep s : Forall (λ piece, sep ∉ piece) (split sep s).
Proof.
  induction s as [|c s IH]; simpl.
  - repeat constructor. apply not_elem_of_nil.
  - case_decide as Hc.
    + constructor; [apply not_elem_of_nil|done].
    + destruct (split sep s) as [|piece pieces]; [repeat constructor|].
      * intros [->|?%elem_of_nil]%elem_of_cons; done.
      * apply Forall_cons in IH as [Hp Hps]. constructor; [|done].
        intros [->|?]%elem_of_cons; done.
Qed.

(** [split(sep).map(trim).filter(nonempty)]: every item is non-empty, has
    no white space at either end and holds no separator. *)
Lemma split_trim_items sep s item :
  item ∈ filter (λ x, 0 < jslength x) (trim <$> split sep s) →
  item ≠ [] ∧ trim item = item ∧ sep ∉ item.
Proof.
  intros [Hlen (piece & -> & Hpiece)%list_elem_of_fmap]%list_elem_of_filter.
  split; [|split].
  - intros Hnil. rewrite Hnil in Hlen. unfold jslength in Hlen. simpl in Hlen. lia.
  - apply trim_idem.
  - intros Hsep%elem_of_trim.
    pose proof (split_pieces sep s) as Hall. rewrite Forall_forall in Hall.
    by apply (Hall piece).
Qed.
End trimming.

(** ** MarkerExtractor: what is extracted *)

(** X1. Every name [parseMCPServers] returns is non-empty, has no white
    space at either end and holds no newline. *)
Theorem parseMCPServers_items (raw : jsstring) (servers : list jsstring) (server : jsstring) :
  parseMCPServers raw = Some servers → server ∈ servers →
  server ≠ [] ∧ trim server = server ∧ LF ∉ server.
Proof.
  intros (_ & _ & _ & ->)%parseMCPServers_Some Hin.
  by apply split_trim_items in Hin.
Qed.

Lemma parseMCPServers_items_witness :
  let raw := js "<SELECTED_MCP_SERVERS> aws-docs " ++ [LF] ++ [LF] ++ js "  time"
             ++ [LF] ++ js "</SELECTED_MCP_SERVERS>" in
  parseMCPServers raw = Some [js "aws-docs"; js "time"] ∧ trim (js "time") = js "time".
Proof.
  intros raw. assert (parseMCPServers raw = Some [js "aws-docs"; js "time"]) as Hp
    by (by vm_compute).
  split; [done|].
  by destruct (parseMCPServers_items raw _ (js "time") Hp) as (_ & ? & _);
    [apply elem_of_cons; right; apply elem_of_cons; by left|].
Defined.

Section extracted.
Implicit Types (raw pre content post v needle : jsstring).

(** An occurrence inside [take n s] is an occurrence in [s] that ends
    within the first [n] characters. *)
Lemma prefix_drop_take needle (s : jsstring) j n :
  (0 < length needle)%nat →
  needle `prefix_of` drop j (take n s) →
  needle `prefix_of` drop j s ∧ (j + length needle ≤ n)%nat.
Proof.
  intros Hlen Hpre.
  pose proof (prefix_length _ _ Hpre) as Hle.
  rewrite length_drop, length_take in Hle.
  split; [|lia].
  rewrite <-(take_drop n s) at 1.
  rewrite drop_app_le by (rewrite length_take; lia). by apply prefix_app_r.
Qed.

(** An occurrence inside a contiguous part of [s] is an occurrence in
    [s]. *)
Lemma prefix_drop_infix needle before v after k :
  needle `prefix_of` drop k v → (k ≤ length v)%nat →
  needle `prefix_of` drop (length before + k) (before ++ v ++ after).
Proof.
  intros Hpre Hk. rewrite drop_app_add, drop_app_le by done. by apply prefix_app_r.
Qed.

(** X2. What [extractSystemPrompt] returns never starts with white space,
    never ends with white space once the field is closed, and never holds
    the end marker. *)
Theorem extractSystemPrompt_value (raw : jsstring) :
  let v := extractSystemPrompt raw in
  trimStart v = v ∧
  (systemPromptState raw = closed → trim v = v) ∧
  indexOf v SYSTEM_PROMPT_END_MARKER 0 = -1.
Proof.
  intros v. unfold v.
  destruct (systemPromptState raw) eqn:Hst.
  - rewrite (extractSystemPrompt_absent _ Hst). by vm_compute.
  - rewrite (extractSystemPrompt_open _ Hst).
    split; [apply trimStart_idem|]. split; [done|].
    apply systemPromptState_open in Hst as [Hs He].
    pose proof (indexOf_found _ _ _ _ eq_refl Hs) as (? & ? & _).
    set (cs := indexOf raw SYSTEM_PROMPT_START_MARKER 0
               + jslength SYSTEM_PROMPT_START_MARKER) in *.
    assert (0 ≤ cs ≤ jslength raw) as Hcs by (unfold cs; jslia).
    rewrite slice_from_Z by done.
    destruct (indexOf_spec raw SYSTEM_PROMPT_END_MARKER cs) as [[_ Hnone]|(i & Hi & _)];
      [|rewrite He in Hi; lia].
    replace (clamp raw cs) with (Z.to_nat cs) in Hnone by (unfold clamp; jslia).
    apply indexOf_none. rewrite clamp_0. intros k Hk Hpre.
    destruct (trimStart_suffix (drop (Z.to_nat cs) raw)) as (ws & Hws & _).
    apply (Hnone (Z.to_nat cs + (length ws + k))%nat).
    + apply (f_equal length) in Hws. rewrite length_app, length_drop in Hws.
      unfold jslength in Hcs. lia.
    + rewrite <-drop_drop, Hws, drop_app_add. done.
  - rewrite (extractSystemPrompt_closed _ Hst).
    split; [apply trim_trimStart|]. split; [intros _; apply trim_idem|].
    apply systemPromptState_closed in Hst as [Hs He].
    pose proof (indexOf_found _ _ _ _ eq_refl Hs) as (? & ? & _).
    pose proof (indexOf_found _ _ _ _ eq_refl He) as (? & ? & Hfirst).
    set (cs := indexOf raw SYSTEM_PROMPT_START_MARKER 0
               + jslength SYSTEM_PROMPT_START_MARKER) in *.
    set (e := indexOf raw SYSTEM_PROMPT_END_MARKER cs) in *.
    assert (0 ≤ cs ≤ jslength raw) as Hcs by (unfold cs; jslia).
    replace (clamp raw cs) with (Z.to_nat cs) in Hfirst by (unfold clamp; jslia).
    destruct Hfirst as ([Hce _] & _ & Hmin).
    replace cs with (Z.of_nat (Z.to_nat cs)) at 1 by lia.
    replace e with (Z.of_nat (Z.to_nat e)) at 1 by lia.
    rewrite slice_nat by jslia.
    set (part := take _ _).
    destruct (trim_infix part) as (before & after & Hpart).
    apply indexOf_none. rewrite clamp_0. intros k Hk Hpre.
    apply (prefix_drop_infix _ before _ after) in Hpre; [|lia].
    rewrite <-Hpart in Hpre. unfold part in Hpre.
    apply prefix_drop_take in Hpre as [Hpre Hfit]; [|simpl; lia].
    apply (Hmin (Z.to_nat cs + (length before + k))%nat).
    + simpl in Hfit. lia.
    + by rewrite <-drop_drop.
Qed.

Lemma extractSystemPrompt_value_witness :
  let raw := js "<SYSTEM_PROMPT>  Be kind. </SYSTEM_PROMPT> tail </SYSTEM_PROMPT>" in
  extractSystemPrompt raw = js "Be kind." ∧ trim (extractSystemPrompt raw) = js "Be kind.".
Proof.
  intros raw. destruct (extractSystemPrompt_value raw) as (_ & Htrim & _).
  rewrite Htrim by (by vm_compute). split; by vm_compute.
Defined.
End extracted.

(** X3. On a well-formed buffer the server list is the post-processed
    content of its section: when the start marker first occurs right after
    [pre] and the end marker first occurs right after [content], whatever
    follows, [parseMCPServers] returns the lines of [content]. *)
Theorem parseMCPServers_between (pre content post : jsstring) :
  indexOf (pre ++ MCP_SERVERS_START_MARKER) MCP_SERVERS_START_MARKER 0 = jslength pre →
  indexOf (pre ++ MCP_SERVERS_START_MARKER ++ content ++ MCP_SERVERS_END_MARKER)
          MCP_SERVERS_END_MARKER 0
    = jslength pre + jslength MCP_SERVERS_START_MARKER + jslength content →
  parseMCPServers
    (pre ++ MCP_SERVERS_START_MARKER ++ content ++ MCP_SERVERS_END_MARKER ++ post)
  = Some (server_lines content).
Proof.
  intros Hs He.
  set (whole := pre ++ _).
  assert (whole = (pre ++ MCP_SERVERS_START_MARKER)
                    ++ (content ++ MCP_SERVERS_END_MARKER ++ post)) as Hw1
    by (unfold whole; by rewrite <-!app_assoc).
  assert (whole = (pre ++ MCP_SERVERS_START_MARKER ++ content ++ MCP_SERVERS_END_MARKER)
                    ++ post) as Hw2
    by (unfold whole; by rewrite <-!app_assoc).
  assert (indexOf whole MCP_SERVERS_START_MARKER 0 = jslength pre) as Hi.
  { rewrite Hw1. apply indexOf_app_Z; [jslia|done|jslia]. }
  assert (indexOf whole MCP_SERVERS_END_MARKER 0
          = jslength pre + jslength MCP_SERVERS_START_MARKER + jslength content) as Hj.
  { rewrite Hw2. apply indexOf_app_Z; [jslia|done|jslia]. }
  apply parseMCPServers_Some. rewrite Hi, Hj.
  split; [jslia|]. split; [jslia|]. split; [jslia|]. f_equal.
  replace (jslength pre + jslength MCP_SERVERS_START_MARKER)
    with (Z.of_nat (length (pre ++ MCP_SERVERS_START_MARKER)))
    by (rewrite length_app; jslia).
  replace (Z.of_nat (length (pre ++ MCP_SERVERS_START_MARKER)) + jslength content)
    with (Z.of_nat (length (pre ++ MCP_SERVERS_START_MARKER) + length content))
    by jslia.
  rewrite slice_nat by (rewrite Hw1, !length_app; simpl; lia).
  rewrite Hw1, drop_app_length.
  replace (_ + _ - _)%nat with (length content) by lia.
  by rewrite take_app_length.
Qed.

Lemma parseMCPServers_between_witness :
  parseMCPServers
    (js "Sure. " ++ MCP_SERVERS_START_MARKER ++ ([LF] ++ js "aws-docs" ++ [LF])
       ++ MCP_SERVERS_END_MARKER ++ js "<SYSTEM_PROMPT>Be kind.")
  = Some [js "aws-docs"].
Proof.
  rewrite parseMCPServers_between; [done|by vm_compute|by vm_compute].
Defined.

Lemma extractSystemPrompt_between_witness :
  extractSystemPrompt
    (js "</SYSTEM_PROMPT> so: " ++ SYSTEM_PROMPT_START_MARKER ++ js " Be kind. "
       ++ SYSTEM_PROMPT_END_MARKER ++ js " bye")
  = js "Be kind.".
Proof.
  rewrite extractSystemPrompt_between; [by vm_compute|by vm_compute|by vm_compute].
Defined.

Lemma parseMCPServers_end_first_witness :
  parseMCPServers
    (js "</SELECTED_MCP_SERVERS>"
       ++ js "<SELECTED_MCP_SERVERS>aws-docs</SELECTED_MCP_SERVERS>")
  = None.
Proof.
  apply parseMCPServers_end_first; [by vm_compute|left; by vm_compute].
Defined.

(** ** ChunkDecoder: composition *)

Section decoder_composition.
Context `{JsonParse}.
Implicit Types (a b chunk : jsstring) (chunks : list StreamingChunk).

Lemma split_nonempty sep (s : jsstring) : split sep s ≠ [].
Proof.
  induction s as [|c s IH]; simpl; [done|].
  case_decide; [done|]. by destruct (split sep s).
Qed.

Lemma split_app sep a b :
  split sep (a ++ sep :: b) = split sep a ++ split sep b.
Proof.
  induction a as [|c a IH]; simpl.
  - by rewrite decide_True.
  - case_decide; [by rewrite IH|]. rewrite IH.
    pose proof (split_nonempty sep a). by destruct (split sep a).
Qed.

Lemma trimStart_all_ws (s : jsstring) : forallb is_ws s = true → trimStart s = [].
Proof.
  induction s as [|c s IH]; simpl; [done|].
  intros [-> Hs]%andb_true_iff. by apply IH.
Qed.

Lemma split_all_ws sep (s : jsstring) :
  forallb is_ws s = true → Forall (λ piece, trim piece = []) (split sep s).
Proof.
  induction s as [|c s IH]; simpl.
  - intros _. by repeat constructor.
  - intros [Hc Hs]%andb_true_iff. specialize (IH Hs). case_decide.
    + by constructor.
    + pose proof (split_nonempty sep s).
      destruct (split sep s) as [|piece pieces]; [done|].
      apply Forall_cons_1 in IH as [Hp Hps]. constructor; [|done].
      unfold trim in *. simpl. rewrite Hc. done.
Qed.

(** X6. Decoding composes over newlines: a chunk made of two parts joined
    by a newline decodes to the events of the first part followed by the
    events of the second, whatever the parts hold; and a chunk of white
    space only decodes to no event. *)
Theorem parseStreamChunk_app a b chunk :
  parseStreamChunk (a ++ [LF] ++ b) = parseStreamChunk a ++ parseStreamChunk b ∧
  (forallb is_ws chunk = true → parseStreamChunk chunk = []).
Proof.
  unfold parseStreamChunk. rewrite !push_parsed_omap. simpl. split.
  - rewrite split_app, filter_app. apply omap_app.
  - intros Hws%(split_all_ws LF).
    replace (filter _ (split LF chunk)) with (@nil jsstring); [done|].
    symmetry. induction Hws as [|piece pieces Hp _ IH]; [done|].
    rewrite filter_cons, Hp. exact IH.
Qed.

Lemma join_nil_concat (pieces : list jsstring) : join [] pieces = concat pieces.
Proof.
  induction pieces as [|piece pieces IH]; [done|].
  destruct pieces as [|piece' pieces]; simpl in *; [by rewrite app_nil_r|].
  by rewrite IH.
Qed.

(** X7. The text of a list of events is the concatenation, in order, of
    the texts that are present; so it distributes over the concatenation of
    event lists, and an event without text, or with the empty text, adds
    nothing. *)
Theorem extractTextFromChunks_concat chunks chunks' :
  extractTextFromChunks chunks = concat (omap chunk_text chunks) ∧
  extractTextFromChunks (chunks ++ chunks')
  = extractTextFromChunks chunks ++ extractTextFromChunks chunks'.
Proof.
  assert (∀ l, extractTextFromChunks l = concat (omap chunk_text l)) as Hc.
  { intros l. unfold extractTextFromChunks. rewrite join_nil_concat.
    induction l as [|[[[|c t]|]] l IH]; [done| | |];
      rewrite filter_cons; csimpl.
    - exact IH.
    - by rewrite IH.
    - exact IH. }
  split; [apply Hc|]. rewrite !Hc, omap_app. apply concat_app.
Qed.
End decoder_composition.

Lemma parseStreamChunk_app_witness :
  @parseStreamChunk parse_text_object ([LF] ++ js "  " ++ [LF]) = [].
Proof.
  by apply (proj2 (@parseStreamChunk_app parse_text_object [] []
                     ([LF] ++ js "  " ++ [LF]))).
Defined.

(** ** The hook: how an invocation settles *)

Section settling.
Context `{JsonParse}.
Implicit Types (chunks : list jsstring) (err : Thrown).

Lemma run_app w evs evs' : run w (evs ++ evs') = run (run w evs) evs'.
Proof. apply foldl_app. Qed.

Lemma single_call_hook (texts : list jsstring) :
  let h := (feed initial_hook texts).1 in
  (feed initial_hook texts).2 = concat texts ∧
  error h = None ∧ isGenerating h = true ∧
  abortControllerRef h = Some 0%nat ∧ controllers h = [false].
Proof.
  intros h. unfold h. rewrite feed_feed_from. split.
  - apply (feed_from_raw _ [] texts).
  - by destruct (feed_from_kept (generate_begin initial_hook) [] texts)
      as (-> & -> & -> & ->).
Qed.

(** X8. A generation whose chunks all decode (no line of theirs is a JSON
    [null]) and that runs to the end of its stream resolves to the system
    prompt extracted from the concatenated texts of its chunks; the pending
    flag and the controller reference are cleared and no error is recorded;
    the server list held is the one parsed from the whole output (empty
    when none parses); and the prompt held is the resolved value whenever
    that value is non-empty or the prompt is not closed. *)
Theorem generate_resolves chunks (texts : list jsstring) :
  Forall2 (λ chunk text, chunk_text_of chunk = Some text) chunks texts →
  let raw := concat texts in
  let w := run initial_world (Generate :: (Chunk 0 <$> chunks) ++ [StreamEnd 0]) in
  calls w = [{| rawOutput := raw; returned := Some (extractSystemPrompt raw) |}] ∧
  isGenerating (hook w) = false ∧
  abortControllerRef (hook w) = None ∧
  error (hook w) = None ∧
  suggestedMCPServers (hook w) = default [] (parseMCPServers raw) ∧
  (extractSystemPrompt raw ≠ [] ∨ systemPromptState raw ≠ closed →
   generatedPrompt (hook w) = extractSystemPrompt raw).
Proof.
  intros Hall raw w. unfold w.
  rewrite app_comm_cons, run_app, (run_single_call _ _ Hall).
  destruct (single_call_hook texts) as (Hraw & Herr & _ & _ & _).
  cbv zeta in Hraw, Herr. fold raw in Hraw.
  destruct (feed_inv initial_hook texts) as [Hs Hp].
  fold raw in Hs, Hp. rewrite Hraw. simpl.
  split_and!; try done.
  unfold servers_inv in Hs. destruct (mcpServersParsedRef _).
  - by rewrite Hs.
  - by destruct Hs as [-> ->].
Qed.

(** X9. A generation that fails settles all the same. When its stream
    throws after chunks that all decoded, it resolves to what the output
    received so far holds, the pending flag and the controller reference
    are cleared, and both fields stay as the last chunk left them. The
    failure is recorded when it is an [Error] whose name is not
    [AbortError]; otherwise no error is recorded. Once settled, the
    invocation reads nothing more of its stream. A chunk one of whose lines
    is a JSON [null] fails the generation in the same way: it is not added
    to the output, and the call settles as on a stream that throws a
    [TypeError]. *)
Theorem generate_stream_failure chunks (texts : list jsstring) err :
  Forall2 (λ chunk text, chunk_text_of chunk = Some text) chunks texts →
  let raw := concat texts in
  let w0 := run initial_world (Generate :: (Chunk 0 <$> chunks)) in
  let w := step w0 (StreamThrow 0 err) in
  calls w = [{| rawOutput := raw; returned := Some (extractSystemPrompt raw) |}] ∧
  isGenerating (hook w) = false ∧
  abortControllerRef (hook w) = None ∧
  generatedPrompt (hook w) = generatedPrompt (hook w0) ∧
  suggestedMCPServers (hook w) = suggestedMCPServers (hook w0) ∧
  error (hook w) = match err with
                   | ThrownError name =>
                       if decide (name = js "AbortError") then None else Some err
                   | ThrownOther => None
                   end ∧
  (∀ chunk err', step w (Chunk 0 chunk) = w ∧ step w (StreamEnd 0) = w ∧
                 step w (StreamThrow 0 err') = w) ∧
  (∀ bad, chunk_text_of bad = None →
          step w0 (Chunk 0 bad) = step w0 (StreamThrow 0 TypeError)).
Proof.
  intros Hall raw w0 w. unfold w, w0. rewrite (run_single_call _ _ Hall).
  destruct (single_call_hook texts) as (Hraw & Herr & _ & Href & Hctrl).
  cbv zeta in Hraw, Herr, Href, Hctrl. fold raw in Hraw. rewrite Hraw.
  set (h := (feed initial_hook _).1) in *.
  assert (generatedPrompt (generate_catch err h) = generatedPrompt h ∧
          suggestedMCPServers (generate_catch err h) = suggestedMCPServers h ∧
          error (generate_catch err h)
          = match err with
            | ThrownError name =>
                if decide (name = js "AbortError") then None else Some err
            | ThrownOther => None
            end)
    as (Hg & Hs & He).
  { destruct err as [name|]; simpl; [|done].
    case_bool_decide as Hname; simpl.
    - by rewrite decide_False.
    - by rewrite decide_True. }
  cbn [step hook calls lookup list_lookup returned settle rawOutput generate_finally
       list_insert insert].
  split_and!; try done.
  intros bad ->. unfold signal_aborted. by rewrite Href, Hctrl.
Qed.
End settling.

Lemma generate_resolves_witness :
  let chunks := [text_object (js "<SYSTEM_PROMPT>Be ");
                 text_object (js "kind.</SYSTEM_PROMPT>")] in
  generatedPrompt
    (hook (@run parse_text_or_null initial_world
             (Generate :: (Chunk 0 <$> chunks) ++ [StreamEnd 0])))
  = js "Be kind.".
Proof.
  intros chunks.
  destruct (@generate_resolves parse_text_or_null chunks
              [js "<SYSTEM_PROMPT>Be "; js "kind.</SYSTEM_PROMPT>"])
    as (_ & _ & _ & _ & _ & Hp).
  - repeat (constructor; [by vm_compute|]). constructor.
  - rewrite Hp; [by vm_compute|left; by vm_compute].
Defined.

Lemma generate_stream_failure_witness :
  let chunks := [text_object (js "<SYSTEM_PROMPT>Be ")] in
  let bad := text_object (js " kind.") ++ [LF] ++ js "null" in
  let w := @step parse_text_or_null
             (@run parse_text_or_null initial_world (Generate :: (Chunk 0 <$> chunks)))
             (Chunk 0 bad) in
  error (hook w) = Some TypeError ∧
  calls w = [{| rawOutput := js "<SYSTEM_PROMPT>Be "; returned := Some (js "Be ") |}].
Proof.
  intros chunks bad w.
  destruct (@generate_stream_failure parse_text_or_null chunks
              [js "<SYSTEM_PROMPT>Be "] TypeError)
    as (Hcalls & _ & _ & _ & _ & Herr & _ & Hbad).
  - repeat (constructor; [by vm_compute|]). constructor.
  - unfold w. rewrite (Hbad bad) by (by vm_compute). split; [exact Herr|].
    rewrite Hcalls. by vm_compute.
Defined.

(** ** Model ids *)

(** X25. A sanitized model id has the length of the id it comes from and
    holds only letters, digits and hyphens; the characters of that class
    stay where they are, so that an id made of them is returned as it is
    and sanitizing twice is sanitizing once. *)
Theorem sanitizeModelId_export_name (modelId : jsstring) :
  length (sanitizeModelId modelId) = length modelId ∧
  Forall (λ c, is_export_char c = true) (sanitizeModelId modelId) ∧
  (∀ i c, modelId !! i = Some c → is_export_char c = true →
          sanitizeModelId modelId !! i = Some c) ∧
  (sanitizeModelId modelId = modelId ↔ Forall (λ c, is_export_char c = true) modelId) ∧
  sanitizeModelId (sanitizeModelId modelId) = sanitizeModelId modelId.
Proof.
  unfold sanitizeModelId. split_and!.
  - apply length_fmap.
  - apply Forall_fmap, Forall_true. intros c. simpl.
    destruct (is_export_char c) eqn:Hc; [done|by vm_compute].
  - intros i c Hi Hc. rewrite list_lookup_fmap, Hi. simpl. by rewrite Hc.
  - induction modelId as [|c s IH]; [done|]. csimpl. rewrite Forall_cons. split.
    + intros [= Hc Hs]. split; [|by apply IH].
      destruct (is_export_char c) eqn:Hc'; [done|]. by subst c.
    + intros [Hc Hs]. rewrite Hc. f_equal. by apply IH.
  - rewrite <-list_fmap_compose. apply list_fmap_ext. intros _ c _. simpl.
    destruct (is_export_char c) eqn:Hc; [by rewrite Hc|done].
Qed.

(** ** Diagram options *)

Section diagram_options.
Context {A : Type} `{EqDecision A}.
Implicit Types (option : A) (prev : list A).

Lemma toggleDiagramOption_NoDup option prev :
  NoDup prev → NoDup (toggleDiagramOption option prev).
Proof.
  intros Hnd. unfold toggleDiagramOption. case_bool_decide as Hin.
  - case_bool_decide; [done|]. by apply NoDup_filter.
  - apply NoDup_app. split_and!; [done| |apply NoDup_singleton].
    intros o Ho ->%list_elem_of_singleton. done.
Qed.

Lemma toggleDiagramOption_nonempty option prev :
  NoDup prev → prev ≠ [] → toggleDiagramOption option prev ≠ [].
Proof.
  intros Hnd Hne. unfold toggleDiagramOption. case_bool_decide as Hin.
  - case_bool_decide as Hlen; [done|].
    destruct prev as [|a [|b prev]]; [done|done|].
    apply NoDup_cons in Hnd as [Ha Hnd].
    destruct (decide (a = option)) as [->|Hao].
    + assert (b ≠ option) as Hb by (intros ->; apply Ha; left).
      rewrite filter_cons_False by (by intros ?). by rewrite filter_cons_True.
    + by rewrite filter_cons_True.
  - by destruct prev.
Qed.

(** X22. Toggling a diagram option: every other option stays selected or
    unselected as it was; the toggled option becomes selected when it was
    not, and unselected when it was, unless it was the only one selected.
    From a selection without repetition the result is again without
    repetition and, when the selection was not empty, not empty: whatever
    is toggled from the initial selection, one option at least stays
    selected. *)
Theorem toggleDiagramOption_selection option prev (toggled : list A) (first : A) :
  (∀ o, o ≠ option → o ∈ toggleDiagramOption option prev ↔ o ∈ prev) ∧
  (option ∈ toggleDiagramOption option prev ↔ option ∉ prev ∨ length prev = 1%nat) ∧
  (NoDup prev → NoDup (toggleDiagramOption option prev)) ∧
  (NoDup prev → prev ≠ [] → toggleDiagramOption option prev ≠ []) ∧
  (let selection := foldl (λ prev o, toggleDiagramOption o prev) [first] toggled in
   NoDup selection ∧ selection ≠ []).
Proof.
  split_and!.
  - intros o Ho. unfold toggleDiagramOption. case_bool_decide as Hin.
    + case_bool_decide; [done|]. rewrite list_elem_of_filter.
      split; [by intros [_ ?]|by intros ?].
    + rewrite elem_of_app, list_elem_of_singleton.
      split; [by intros [?|?]|by left].
  - unfold toggleDiagramOption. case_bool_decide as Hin.
    + case_bool_decide as Hlen.
      * split; [by right|done].
      * rewrite list_elem_of_filter. split; [by intros [? _]|by intros [?|?]].
    + rewrite elem_of_app, list_elem_of_singleton. split; [by left|by right].
  - apply toggleDiagramOption_NoDup.
  - apply toggleDiagramOption_nonempty.
  - induction toggled as [|o toggled IH] using rev_ind.
    + simpl. split; [apply NoDup_singleton|done].
    + cbv zeta in *. rewrite foldl_app. simpl. destruct IH as [Hnd Hne].
      split; [by apply toggleDiagramOption_NoDup|by apply toggleDiagramOption_nonempty].
Qed.
End diagram_options.

Lemma toggleDiagramOption_selection_witness :
  toggleDiagramOption 2%nat [1; 2]%nat ≠ [] ∧
  NoDup (toggleDiagramOption 2%nat [1; 2]%nat).
Proof.
  destruct (toggleDiagramOption_selection 2%nat [1; 2]%nat [] 1%nat)
    as (_ & _ & Hnd & Hne & _).
  assert (NoDup [1; 2]%nat) as H12.
  { apply NoDup_cons. split; [by intros ?%list_elem_of_singleton|apply NoDup_singleton]. }
  split; [by apply Hne|by apply Hnd].
Defined.

(** ** Meeting minutes page: panels *)

(** X23. On a small screen the two panels are never shown side by side:
    whatever the sequence of screen changes and panel selections, when the
    screen is not large the active panel is the transcription or the
    generation panel. A selection of either single panel is always
    honoured. *)
Theorem small_screen_single_panel (evs : list ViewEvent) (v : PageView) (panel : ViewPanel) :
  (isLargeScreen (foldl view_step initial_view evs) = false →
   activePanel (foldl view_step initial_view evs) ≠ view_both) ∧
  (panel ≠ view_both → activePanel (view_step v (PanelChange panel)) = panel).
Proof.
  split.
  - induction evs as [|ev evs IH] using rev_ind; [done|].
    rewrite foldl_app. simpl. set (v' := foldl view_step initial_view evs) in *.
    destruct ev as [matches|p]; simpl.
    + intros ->. simpl. by case_bool_decide.
    + intros Hsmall. rewrite Hsmall. simpl.
      destruct p; simpl; [done| |done]. done.
  - intros Hp. simpl. by destruct panel.
Qed.

Lemma small_screen_single_panel_witness :
  activePanel (foldl view_step initial_view [MediaChange false; PanelChange view_both])
    ≠ view_both ∧
  activePanel (view_step initial_view (PanelChange view_generation)) = view_generation.
Proof.
  destruct (small_screen_single_panel [MediaChange false; PanelChange view_both]
              initial_view view_generation) as [Hsmall Hpanel].
  split; [by apply Hsmall|by apply Hpanel].
Defined.

(** ** Agent form: tags *)

Lemma split_after_space s :
  trim <$> split COMMA (32%N :: s) = trim <$> split COMMA s.
Proof.
  simpl. pose proof (split_nonempty COMMA s). by destruct (split COMMA s).
Qed.

Lemma split_tagsToInput tags :
  Forall (λ tag, COMMA ∉ tag) tags → tags ≠ [] →
  trim <$> split COMMA (tagsToInput tags) = trim <$> tags.
Proof.
  unfold tagsToInput. induction 1 as [|tag tags Htag Htags IH]; [done|]. intros _.
  destruct tags as [|tag' tags].
  - simpl. by rewrite split_no_sep.
  - change (join (js ", ") (tag :: tag' :: tags))
      with (tag ++ COMMA :: 32%N :: join (js ", ") (tag' :: tags)).
    rewrite split_app_sep by done. rewrite fmap_cons, split_after_space, IH; done.
Qed.

(** X24. The tags of the form: whatever the input, every tag read from it
    is non-empty, has no white space at either end and holds no comma; and
    tags of that kind, loaded into the input and read again, come back
    unchanged. *)
Theorem parseTags_tagsToInput (tagsInput : jsstring) (tags : list jsstring) :
  (∀ tag, tag ∈ parseTags tagsInput → tag ≠ [] ∧ trim tag = tag ∧ COMMA ∉ tag) ∧
  (Forall (λ tag, tag ≠ [] ∧ trim tag = tag ∧ COMMA ∉ tag) tags →
   parseTags (tagsToInput tags) = tags).
Proof.
  split; [intros tag; apply split_trim_items|].
  intros Htags. unfold parseTags. destruct (decide (tags = [])) as [->|Hne]; [done|].
  rewrite split_tagsToInput; [|by eapply Forall_impl; [done|intros ? (_ & _ & ?)]|done].
  clear Hne. induction Htags as [|tag tags (Hne & Htrim & _) _ IH]; [done|].
  rewrite fmap_cons, Htrim, filter_cons_True, IH; [done|].
  destruct tag; [done|]. unfold jslength. simpl. lia.
Qed.

Lemma parseTags_tagsToInput_witness :
  parseTags (tagsToInput [js "aws"; js "docs search"]) = [js "aws"; js "docs search"].
Proof.
  apply (proj2 (parseTags_tagsToInput [] [js "aws"; js "docs search"])).
  compute_done.
Defined.

(** ** The transcription panel over its events *)

Section panel.
Implicit Types (st : Transcription) (ev : PanelEvent) (seg : TranscriptionSegment).

Lemma panel_run_snoc st evs ev :
  panel_run st (evs ++ [ev]) = panel_step (panel_run st evs) ev.
Proof. unfold panel_run. by rewrite foldl_app. Qed.

Lemma processMicrophone_cases st :
  processMicrophone st = st ∨
  ∃ latestSegment,
    processMicrophone st
    = setTranscriptionSegments
        (updateTranscriptionSegments
           (to_segment microphone (currentSessionId st) latestSegment)) st.
Proof.
  unfold processMicrophone. destruct (last _) as [latestSegment|]; [|by left].
  right. by exists latestSegment.
Qed.

Lemma processScreen_cases st :
  processScreen st = st ∨
  enableScreenAudio st = true ∧
  ∃ latestSegment,
    processScreen st
    = setTranscriptionSegments
        (updateTranscriptionSegments
           (to_segment screen (currentSessionId st) latestSegment)) st.
Proof.
  unfold processScreen. destruct (enableScreenAudio st); [|by left].
  destruct (last _) as [latestSegment|]; [|by left].
  right. split; [done|]. by exists latestSegment.
Qed.

(** What one event does to the collection and to the session id: nothing,
    or one upsert of a segment of the current session, or a new session,
    or the clearing of both. *)
Lemma panel_step_cases st ev :
  let st' := panel_step st ev in
  (transcriptionSegments st' = transcriptionSegments st ∧
   (currentSessionId st' = currentSessionId st ∨
    currentSessionId st' = currentSessionId st + 1)) ∨
  (ev = ClearTranscript ∧ transcriptionSegments st' = [] ∧ currentSessionId st' = 0) ∨
  (currentSessionId st' = currentSessionId st ∧
   ∃ src latestSegment,
     (src = screen → enableScreenAudio st' = true) ∧
     transcriptionSegments st'
     = updateTranscriptionSegments (to_segment src (currentSessionId st) latestSegment)
         (transcriptionSegments st)).
Proof.
  destruct ev as [m s capture| | |on|raws|raws]; cbv zeta.
  - left. unfold panel_step, processScreen, processMicrophone,
      onClickExecStartTranscription.
    destruct (enableScreenAudio st) eqn:Hscreen, s, capture, m; simpl;
      rewrite ?Hscreen; simpl; auto.
  - left. simpl. auto.
  - right. left. split; [done|].
    unfold panel_step, processScreen, processMicrophone. simpl.
    by destruct (enableScreenAudio st).
  - unfold panel_step. case_bool_decide; [left; auto|].
    destruct (processScreen_cases (setEnableScreenAudio on st))
      as [->|(Hon & latestSegment & ->)]; [left; auto|].
    right. right. split; [done|]. exists screen, latestSegment. done.
  - unfold panel_step.
    destruct (processMicrophone_cases (set_micRawTranscripts raws st))
      as [->|(latestSegment & ->)]; [left; auto|].
    right. right. split; [done|]. exists microphone, latestSegment. done.
  - unfold panel_step.
    destruct (processScreen_cases (set_screenRawTranscripts raws st))
      as [->|(Hon & latestSegment & ->)]; [left; auto|].
    right. right. split; [done|]. exists screen, latestSegment. done.
Qed.

Lemma elem_of_upsert seg newSegment (prev : list TranscriptionSegment) :
  seg ∈ updateTranscriptionSegments newSegment prev → seg = newSegment ∨ seg ∈ prev.
Proof.
  unfold updateTranscriptionSegments.
  destruct (list_find _ prev) as [[i old]|].
  - intros (j & Hj)%list_elem_of_lookup_1.
    destruct (decide (i = j)) as [->|Hij].
    + assert (j < length prev)%nat.
      { apply lookup_lt_Some in Hj. by rewrite length_insert in Hj. }
      rewrite list_lookup_insert_eq in Hj by done. left. congruence.
    + rewrite list_lookup_insert_ne in Hj by done. right.
      by eapply list_elem_of_lookup_2.
  - intros [?|Hnew%list_elem_of_singleton]%elem_of_app; auto.
Qed.

(** X12. At any time the panel holds at most one segment for a result id
    and a source: whatever the sequence of recordings started and stopped,
    clearings, switchings of the screen source and transcripts published by
    either source, no two entries of the collection share a key. *)
Theorem panel_segments_unique (evs : list PanelEvent) :
  NoDup (segment_key <$> transcriptionSegments (panel_run initial_transcription evs)).
Proof.
  induction evs as [|ev evs IH] using rev_ind; [apply NoDup_nil_2|].
  rewrite panel_run_snoc.
  destruct (panel_step_cases (panel_run initial_transcription evs) ev)
    as [[-> _]|[(_ & -> & _)|(_ & src & latestSegment & _ & ->)]].
  - done.
  - apply NoDup_nil_2.
  - by apply upsert_NoDup.
Qed.

(** X13. Session ids. Every segment the panel holds carries a session id
    between 0 and the current session id; and right after a recording is
    started, every segment held belongs to an earlier session than the one
    that starts, so that what is transcribed next is displayed after all
    of them. *)
Theorem panel_session_ids (evs : list PanelEvent)
    (enableMicAudio isScreenAudioSupported : bool) (capture : ScreenCapture) :
  let st := panel_run initial_transcription evs in
  let started :=
    panel_step st (StartRecording enableMicAudio isScreenAudioSupported capture) in
  Forall (λ seg, 0 ≤ sessionId seg ≤ currentSessionId st) (transcriptionSegments st) ∧
  Forall (λ seg, sessionId seg < currentSessionId started) (transcriptionSegments started).
Proof.
  intros st started.
  assert (∀ evs', let st := panel_run initial_transcription evs' in
            0 ≤ currentSessionId st ∧
            Forall (λ seg, 0 ≤ sessionId seg ≤ currentSessionId st)
                   (transcriptionSegments st)) as Hinv.
  { clear. intros evs. induction evs as [|ev evs IH] using rev_ind.
    { cbv zeta. simpl. split; [done|constructor]. }
    cbv zeta in *. rewrite panel_run_snoc. destruct IH as [Hcur Hall].
    set (st := panel_run initial_transcription evs) in *.
    destruct (panel_step_cases st ev)
      as [[-> Hs]|[(_ & -> & ->)|(-> & src & latestSegment & _ & ->)]].
    - split; [lia|]. eapply Forall_impl; [exact Hall|]. simpl. lia.
    - split; [done|constructor].
    - split; [done|]. apply Forall_forall. intros seg [->|Hin]%elem_of_upsert.
      + simpl. lia.
      + rewrite Forall_forall in Hall. by apply Hall. }
  destruct (Hinv evs) as [Hcur Hall]. fold st in Hcur, Hall. split; [done|].
  assert (transcriptionSegments started = transcriptionSegments st ∧
          currentSessionId started = currentSessionId st + 1) as [-> ->].
  { unfold started, panel_step, processScreen, processMicrophone,
      onClickExecStartTranscription.
    destruct (enableScreenAudio st) eqn:Hscreen, isScreenAudioSupported, capture,
      enableMicAudio; simpl; rewrite ?Hscreen; simpl; auto. }
  eapply Forall_impl; [exact Hall|]. simpl. lia.
Qed.

(** X14. While the screen source has never been switched on, the panel
    holds microphone segments only, whatever the screen source
    publishes. *)
Theorem panel_microphone_only (evs : list PanelEvent) :
  SwitchScreenAudio true ∉ evs →
  Forall (λ seg, source seg = microphone)
         (transcriptionSegments (panel_run initial_transcription evs)).
Proof.
  intros Hoff.
  assert (let st := panel_run initial_transcription evs in
          enableScreenAudio st = false ∧
          Forall (λ seg, source seg = microphone) (transcriptionSegments st)) as [_ ?];
    [|done].
  induction evs as [|ev evs IH] using rev_ind.
  { cbv zeta. simpl. split; [done|constructor]. }
  cbv zeta in *. rewrite panel_run_snoc.
  apply not_elem_of_app in Hoff as [Hoff Hev]. destruct (IH Hoff) as [Hscreen Hall].
  set (st := panel_run initial_transcription evs) in *.
  assert (enableScreenAudio (panel_step st ev) = false) as Hscreen'.
  { destruct ev as [m s capture| | |on|raws|raws];
      unfold panel_step, processScreen, processMicrophone,
        onClickExecStartTranscription; simpl; rewrite ?Hscreen; simpl.
    - by destruct m.
    - done.
    - done.
    - case_bool_decide as Hon; [done|]. destruct on; [|done].
      exfalso. apply Hev. left.
    - by destruct (last raws).
    - done. }
  split; [done|].
  destruct (panel_step_cases st ev)
    as [[-> _]|[(_ & -> & _)|(_ & src & latestSegment & Hsrc & ->)]].
  - done.
  - constructor.
  - apply Forall_forall. intros seg [->|Hin]%elem_of_upsert.
    + simpl. destruct src; [done|]. rewrite Hsrc in Hscreen' by done. done.
    + rewrite Forall_forall in Hall. by apply Hall.
Qed.
Lemma upsert_keys_prefix newSegment (prev : list TranscriptionSegment) :
  segment_key <$> prev
  `prefix_of` segment_key <$> updateTranscriptionSegments newSegment prev.
Proof.
  destruct (list_find (λ seg, same_key seg newSegment) prev) as [[i old]|] eqn:Hfind.
  - by destruct (upsert_existing _ _ _ _ Hfind) as [_ ->].
  - destruct (upsert_fresh _ _ Hfind) as [-> _]. rewrite fmap_app. by apply prefix_app_r.
Qed.

(** X15. Between two clearings the collection only grows, and at its end:
    over any sequence of events that holds no clearing, the keys held
    before are the first keys held after, in the same order. Starting or
    stopping a recording, or switching the screen source, loses no
    segment. *)
Theorem panel_keys_grow st (evs : list PanelEvent) :
  ClearTranscript ∉ evs →
  segment_key <$> transcriptionSegments st
  `prefix_of` segment_key <$> transcriptionSegments (panel_run st evs).
Proof.
  induction evs as [|ev evs IH] using rev_ind; [done|].
  intros [Hevs Hev]%not_elem_of_app. rewrite panel_run_snoc.
  etrans; [by apply IH|]. set (st' := panel_run st evs).
  destruct (panel_step_cases st' ev)
    as [[-> _]|[(-> & _)|(_ & src & latestSegment & _ & ->)]].
  - done.
  - exfalso. apply Hev. left.
  - apply upsert_keys_prefix.
Qed.
End panel.

Lemma panel_microphone_only_witness :
  Forall (λ seg, source seg = microphone)
    (transcriptionSegments
       (panel_run initial_transcription
          [StartRecording true true capture_stream; ScreenTranscripts [raw_r1];
           MicTranscripts [raw_r2]])).
Proof.
  apply panel_microphone_only. intros Hin.
  repeat (apply elem_of_cons in Hin as [Hin|Hin]; [discriminate|]).
  by apply elem_of_nil in Hin.
Defined.

Lemma panel_keys_grow_witness :
  let st := panel_run initial_transcription
              [StartRecording true false capture_null; MicTranscripts [raw_r1]] in
  [(js "r1", microphone)]
  `prefix_of` segment_key <$> transcriptionSegments
       (panel_run st [StopRecording; StartRecording true false capture_null;
                      MicTranscripts [raw_r2]]).
Proof.
  intros st.
  apply (panel_keys_grow st [StopRecording; StartRecording true false capture_null;
                             MicTranscripts [raw_r2]]).
  intros Hin.
  repeat (apply elem_of_cons in Hin as [Hin|Hin]; [discriminate|]).
  by apply elem_of_nil in Hin.
Defined.

(** ** Session boundaries of the list view *)

Section boundaries.
Implicit Types (seg : TranscriptionSegment) (sorted : list TranscriptionSegment).

Lemma with_boundaries_split prev sorted before (b : bool) seg after :
  StronglySorted (λ a b, sessionId a ≤ sessionId b) sorted →
  (∀ p, prev = Some p → Forall (λ s, sessionId p ≤ sessionId s) sorted) →
  with_boundaries prev sorted = before ++ (b, seg) :: after →
  b = true ↔
  (prev ≠ None ∨ before ≠ []) ∧
  (∀ p, prev = Some p → sessionId p ≠ sessionId seg) ∧
  ∀ shown, shown ∈ before → sessionId shown.2 ≠ sessionId seg.
Proof.
  revert prev before. induction sorted as [|s0 rest IH]; intros prev before Hsorted Hprev.
  { by destruct before. }
  apply StronglySorted_cons in Hsorted as [Hs0 Hrest].
  destruct before as [|x before]; simpl.
  - intros [= <- <- _]. destruct prev as [p|].
    + rewrite bool_decide_eq_true. split.
      * intros Hne. split_and!; [by left| |by intros ? ?%elem_of_nil].
        intros q [= <-] Heq. by apply Hne.
      * intros (_ & Hp & _) Heq. by apply (Hp p eq_refl).
    + split; [done|]. by intros ([?|?] & _).
  - intros [= <- Hsplit].
    assert (sessionId s0 ≤ sessionId seg) as Hle.
    { assert (seg ∈ rest) as Hin.
      { rewrite <-(with_boundaries_segments (Some s0) rest), Hsplit.
        rewrite fmap_app, fmap_cons. apply elem_of_app. right. left. }
      rewrite Forall_forall in Hs0. by apply Hs0. }
    rewrite (IH (Some s0) before Hrest); [| |exact Hsplit].
    2:{ by intros p [= <-]. }
    split.
    + intros (_ & Hs0' & Hbefore). specialize (Hs0' s0 eq_refl).
      split_and!; [by right| |].
      * intros p ->. specialize (Hprev p eq_refl).
        apply Forall_cons_1 in Hprev as [Hp _]. lia.
      * intros shown [->|Hin]%elem_of_cons; [done|by apply Hbefore].
    + intros (_ & _ & Hbefore). split_and!; [by left| |].
      * intros p [= <-]. refine (Hbefore (_, s0) _). left.
      * intros shown Hin. apply Hbefore. by right.
Qed.

(** X16. Session boundaries of the list view. A boundary is drawn before a
    segment exactly when it is the first segment shown of its session and
    not the first segment shown: no segment shown before it has its
    session id. So each session but the first shown starts with one
    boundary, and no boundary falls inside a session. *)
Theorem session_boundaries (segments : list TranscriptionSegment)
    before (isNewSession : bool) seg after :
  renderedSegments segments = before ++ (isNewSession, seg) :: after →
  isNewSession = true ↔
  before ≠ [] ∧ ∀ shown, shown ∈ before → sessionId shown.2 ≠ sessionId seg.
Proof.
  intros Hsplit. unfold renderedSegments in Hsplit.
  assert (StronglySorted (λ a b, sessionId a ≤ sessionId b) (sortedSegments segments))
    as Hsorted.
  { eapply StronglySorted_weaken; [|apply array_sort_sorted].
    + intros a b Hab%compareSegments_not_pos. destruct Hab as [?|[? _]]; lia.
    + intros a b Hab. apply compareSegments_not_pos, segment_le_total.
      rewrite <-compareSegments_not_pos. by intros Hn.
    + intros a b c. rewrite !compareSegments_not_pos. apply segment_le_trans. }
  rewrite (with_boundaries_split None _ _ _ _ _ Hsorted ltac:(done) Hsplit).
  split.
  - intros ([?|?] & _ & ?); done.
  - intros [? ?]. split_and!; [by right|done|done].
Qed.
End boundaries.

Lemma session_boundaries_witness :
  renderedSegments [later_session; earlier_session]
  = [(false, earlier_session); (true, later_session)] ∧
  (true = true ↔
   [(false, earlier_session)] ≠ [] ∧
   ∀ shown, shown ∈ [(false, earlier_session)] →
            sessionId shown.2 ≠ sessionId later_session).
Proof.
  assert (renderedSegments [later_session; earlier_session]
          = [(false, earlier_session)] ++ (true, later_session) :: []) as Hr
    by (by vm_compute).
  split; [exact Hr|]. exact (session_boundaries _ _ _ _ _ Hr).
Defined.

(** ** The scheduler over its events *)

Section scheduler_traces.
Implicit Types (st : Minutes) (ev : MinutesEvent) (evs : list MinutesEvent).

Lemma minutes_run_snoc st evs ev :
  minutes_run st (evs ++ [ev])
  = ((minutes_step (minutes_run st evs).1 ev).1,
     (minutes_run st evs).2 ++ (minutes_step (minutes_run st evs).1 ev).2).
Proof.
  unfold minutes_run. rewrite foldl_app. simpl.
  destruct (foldl _ _ evs) as [st' acts]. simpl. by destruct (minutes_step st' ev).
Qed.

Lemma generationEffect_countdown st :
  countdownIntervalRef (generationEffect st).1 = countdownIntervalRef st ∧
  countdownSeconds (generationEffect st).1 = countdownSeconds st ∧
  autoGenerate (generationEffect st).1 = autoGenerate st ∧
  generationFrequency (generationEffect st).1 = generationFrequency st.
Proof.
  unfold generationEffect. destruct (_ && _); [|done]. by destruct (negb _).
Qed.

Lemma minutes_step_countdown st ev :
  countdownIntervalRef (minutes_step st ev).1 = countdownIntervalRef (before_effects st ev) ∧
  countdownSeconds (minutes_step st ev).1 = countdownSeconds (before_effects st ev) ∧
  autoGenerate (minutes_step st ev).1 = autoGenerate (before_effects st ev) ∧
  generationFrequency (minutes_step st ev).1 = generationFrequency (before_effects st ev).
Proof.
  unfold minutes_step, before_effects. destruct (handle st ev) as [st1 acts1]. simpl.
  generalize (if bool_decide (setup_deps st1 ≠ setup_deps st)
              then countdownSetup st1 else st1).
  intros st2. case_bool_decide; [|done].
  pose proof (generationEffect_countdown st2). by destruct (generationEffect st2).
Qed.

Lemma handle_countdown st ev :
  ev ≠ Tick →
  countdownIntervalRef (handle st ev).1 = countdownIntervalRef st ∧
  countdownSeconds (handle st ev).1 = countdownSeconds st.
Proof.
  intros Hev. destruct ev; try done.
  simpl. unfold clickGenerate. destruct (generateDisabled st); [done|].
  unfold handleManualGeneration. destruct (_ && _); [done|].
  by destruct (_ && _).
Qed.

(** X18. The countdown over any sequence of events from the first render:
    the interval runs exactly when auto-generation is on with a positive
    cadence, and then with the cadence now selected; while it runs the
    countdown shown stays between 1 and the cadence in seconds, and while
    it does not the countdown is 0. *)
Theorem countdown_invariant (evs : list MinutesEvent) :
  let st := (minutes_run initial_minutes evs).1 in
  countdownIntervalRef st
  = (if autoGenerate st && bool_decide (0 < generationFrequency st)
     then Some (generationFrequency st * 60) else None) ∧
  match countdownIntervalRef st with
  | Some totalSeconds => 1 ≤ countdownSeconds st ≤ totalSeconds
  | None => countdownSeconds st = 0
  end.
Proof.
  induction evs as [|ev evs IH] using rev_ind; [done|].
  cbv zeta in *. rewrite minutes_run_snoc. cbn [fst].
  set (st := (minutes_run initial_minutes evs).1) in *.
  destruct (minutes_step_countdown st ev) as (-> & -> & -> & ->).
  destruct IH as [Href Hcount].
  unfold before_effects. set (st1 := (handle st ev).1).
  destruct (bool_decide (setup_deps st1 ≠ setup_deps st)) eqn:Hdeps.
  - unfold countdownSetup. cbn.
    destruct (autoGenerate st1) eqn:Hauto; cbn; rewrite ?Hauto; cbn; [|done].
    destruct (decide (0 < generationFrequency st1)) as [Hfreq|Hfreq].
    + rewrite (bool_decide_eq_false_2 (generationFrequency st1 ≤ 0)) by lia.
      rewrite (bool_decide_eq_true_2 (0 < generationFrequency st1)) by lia.
      cbn. rewrite Hauto. split; [done|lia].
    + rewrite (bool_decide_eq_true_2 (generationFrequency st1 ≤ 0)) by lia.
      rewrite (bool_decide_eq_false_2 (0 < generationFrequency st1)) by lia.
      cbn. by rewrite ?Hauto, ?andb_false_r.
  - apply bool_decide_eq_false in Hdeps. apply dec_stable in Hdeps.
    unfold setup_deps in Hdeps. injection Hdeps as Hauto Hfreq. rewrite Hauto, Hfreq.
    assert (ev = Tick ∨ ev ≠ Tick) as [->|Hev] by (destruct ev; (by left) || (by right)).
    + unfold st1. cbn [handle fst]. unfold intervalTick.
      destruct (countdownIntervalRef st) as [totalSeconds|] eqn:Hi; [|by rewrite Hi].
      destruct (bool_decide (countdownSeconds st - 1 ≤ 0)) eqn:Hzero; cbn;
        rewrite Hi; (split; [done|]).
      * lia.
      * apply bool_decide_eq_false in Hzero. lia.
    + unfold st1. destruct (handle_countdown st ev Hev) as [-> ->]. done.
Qed.
(** One tick of a running countdown, on a state whose fire flag is raised
    only if the transcript has no text. *)
Lemma tick_step st totalSeconds :
  autoGenerate st = true → countdownIntervalRef st = Some totalSeconds →
  1 < totalSeconds → 1 ≤ countdownSeconds st ≤ totalSeconds →
  (shouldGenerateRef st = true → hasTranscriptText st = false) →
  minutes_step st Tick
  = if bool_decide (countdownSeconds st ≤ 1) then
      if hasTranscriptText st then
        if minutesLoading st
        then (set_shouldGenerateRef false
                (setCountdownSeconds totalSeconds (set_shouldGenerateRef true st)), [])
        else (set_minutesLoading true
                (set_shouldGenerateRef false
                   (setCountdownSeconds totalSeconds (set_shouldGenerateRef true st))),
              [CallGenerateMinutes (transcriptText st)])
      else (setCountdownSeconds totalSeconds (set_shouldGenerateRef true st), [])
    else (setCountdownSeconds (countdownSeconds st - 1) st, []).
Proof.
  intros Ha Hi Ht Hc Hflag. unfold minutes_step, handle, intervalTick. rewrite Hi.
  destruct (decide (countdownSeconds st ≤ 1)) as [Hfire|Hfire].
  - rewrite (bool_decide_eq_true_2 (countdownSeconds st - 1 ≤ 0)) by lia.
    rewrite (bool_decide_eq_true_2 (countdownSeconds st ≤ 1)) by lia.
    rewrite (bool_decide_eq_false_2 (setup_deps _ ≠ _)) by (by intros []).
    rewrite (bool_decide_eq_true_2 (generation_deps _ ≠ _))
      by (unfold generation_deps; cbn; intros [= ?]; lia).
    unfold generationEffect, hasTranscriptText. cbn -[trim]. rewrite Ha. cbn -[trim].
    destruct (bool_decide (trim (transcriptText st) ≠ [])); [|done].
    by destruct (minutesLoading st).
  - rewrite (bool_decide_eq_false_2 (countdownSeconds st - 1 ≤ 0)) by lia.
    rewrite (bool_decide_eq_false_2 (countdownSeconds st ≤ 1)) by lia.
    rewrite (bool_decide_eq_false_2 (setup_deps _ ≠ _)) by (by intros []).
    rewrite (bool_decide_eq_true_2 (generation_deps _ ≠ _))
      by (unfold generation_deps; cbn; intros [= ?]; lia).
    unfold generationEffect. cbn -[trim]. rewrite Ha.
    destruct (shouldGenerateRef st) eqn:Hf; [|done].
    unfold hasTranscriptText in Hflag. by rewrite Hflag.
Qed.

(** The state and the calls after [n] seconds of a countdown that has just
    been set up, nothing else happening. *)
Lemma ticks_from_setup st totalSeconds (n : nat) :
  autoGenerate st = true → countdownIntervalRef st = Some totalSeconds →
  countdownSeconds st = totalSeconds → 1 < totalSeconds →
  shouldGenerateRef st = false → minutesLoading st = false →
  let fired := bool_decide (totalSeconds ≤ Z.of_nat n) in
  minutes_run st (replicate n Tick)
  = (set_minutesLoading (hasTranscriptText st && fired)
       (set_shouldGenerateRef (negb (hasTranscriptText st) && fired)
          (setCountdownSeconds (totalSeconds - Z.of_nat n `mod` totalSeconds) st)),
     if hasTranscriptText st && fired
     then [CallGenerateMinutes (transcriptText st)] else []).
Proof.
  intros Ha Hi Hc Ht Hf Hl. induction n as [|n IH]; cbv zeta in *.
  { rewrite (bool_decide_eq_false_2 (totalSeconds ≤ Z.of_nat 0)) by lia.
    rewrite !andb_false_r, Z.mod_0_l, Z.sub_0_r by lia.
    unfold minutes_run. simpl. f_equal.
    revert Hc Hf Hl. clear. destruct st. cbn. by intros <- -> ->. }
  rewrite replicate_S_end, minutes_run_snoc, IH. cbn [fst snd]. clear IH.
  set (has := hasTranscriptText st).
  set (c := totalSeconds - Z.of_nat n `mod` totalSeconds).
  set (fired := bool_decide (totalSeconds ≤ Z.of_nat n)).
  set (st_n := set_minutesLoading _ _).
  assert (0 ≤ Z.of_nat n `mod` totalSeconds < totalSeconds) as Hmod
    by (apply Z.mod_pos_bound; lia).
  assert (hasTranscriptText st_n = has) as Hhas by done.
  rewrite (tick_step st_n totalSeconds); [|done|done|done|cbn; lia|].
  2:{ cbn. rewrite Hhas. by destruct has. }
  rewrite Hhas. cbn [countdownSeconds st_n set_minutesLoading set_shouldGenerateRef
                     setCountdownSeconds minutesLoading transcriptText].
  fold c.
  destruct (decide (c ≤ 1)) as [Hfire|Hfire].
  - rewrite (bool_decide_eq_true_2 (c ≤ 1)) by done.
    assert (Z.of_nat (S n) `mod` totalSeconds = 0) as ->.
    { replace (Z.of_nat (S n)) with (Z.of_nat n + 1) by lia.
      rewrite <-Z.add_mod_idemp_l by lia.
      replace (Z.of_nat n `mod` totalSeconds + 1) with totalSeconds by lia.
      apply Z.mod_same. lia. }
    assert (totalSeconds ≤ Z.of_nat (S n)) as Hn.
    { pose proof (Z.mod_le (Z.of_nat n) totalSeconds). lia. }
    rewrite (bool_decide_eq_true_2 (totalSeconds ≤ Z.of_nat (S n))) by done.
    rewrite !andb_true_r, Z.sub_0_r.
    destruct has, fired; by rewrite ?app_nil_r.
  - rewrite (bool_decide_eq_false_2 (c ≤ 1)) by done.
    assert (Z.of_nat (S n) `mod` totalSeconds = Z.of_nat n `mod` totalSeconds + 1) as ->.
    { replace (Z.of_nat (S n)) with (Z.of_nat n + 1) by lia.
      rewrite <-Z.add_mod_idemp_l by lia. apply Z.mod_small. lia. }
    assert (bool_decide (totalSeconds ≤ Z.of_nat (S n)) = fired) as ->.
    { unfold fired. apply bool_decide_ext.
      pose proof (Z.mod_small (Z.of_nat n) totalSeconds).
      split; [|lia]. intros Hn.
      destruct (decide (totalSeconds ≤ Z.of_nat n)); [done|].
      unfold c in Hfire. rewrite Z.mod_small in Hfire by lia. lia. }
    rewrite app_nil_r. f_equal. unfold st_n, c.
    unfold set_minutesLoading, set_shouldGenerateRef, setCountdownSeconds. cbn.
    f_equal. lia.
Qed.

(** X19. A countdown that has just been set up, left to run for [n]
    seconds with nothing else happening: the countdown shows the cadence
    less [n] modulo the cadence; nothing is called before a full cadence
    has passed; when it has and the transcript has text, one generation
    has been called, with that transcript, and no other while it is in
    flight; when the transcript has no text nothing is called and the fire
    stays recorded. *)
Theorem countdown_period st totalSeconds (n : nat) :
  autoGenerate st = true → countdownIntervalRef st = Some totalSeconds →
  countdownSeconds st = totalSeconds → 1 < totalSeconds →
  shouldGenerateRef st = false → minutesLoading st = false →
  let st' := (minutes_run st (replicate n Tick)).1 in
  let fired := bool_decide (totalSeconds ≤ Z.of_nat n) in
  countdownSeconds st' = totalSeconds - Z.of_nat n `mod` totalSeconds ∧
  (minutes_run st (replicate n Tick)).2
  = (if hasTranscriptText st && fired
     then [CallGenerateMinutes (transcriptText st)] else []) ∧
  minutesLoading st' = hasTranscriptText st && fired ∧
  shouldGenerateRef st' = negb (hasTranscriptText st) && fired.
Proof.
  intros Ha Hi Hc Ht Hf Hl. cbv zeta.
  by rewrite (ticks_from_setup st totalSeconds n Ha Hi Hc Ht Hf Hl).
Qed.

(** A transcript with text arrives while a fire is recorded. *)
Lemma text_arrives_step st text :
  shouldGenerateRef st = true → autoGenerate st = true → minutesLoading st = false →
  trim (transcriptText st) = [] → trim text ≠ [] →
  minutes_step st (TranscriptChanged text)
  = (set_minutesLoading true (set_shouldGenerateRef false (set_transcriptText text st)),
     [CallGenerateMinutes text]).
Proof.
  intros Hf Ha Hl Hblank Htext. unfold minutes_step, handle.
  rewrite (bool_decide_eq_false_2 (setup_deps _ ≠ _)) by (by intros []).
  rewrite (bool_decide_eq_true_2 (generation_deps _ ≠ _)).
  2:{ unfold generation_deps. cbn -[trim]. intros [= Heq]. apply Htext.
      by rewrite Heq. }
  unfold generationEffect. cbn -[trim]. rewrite Hf, Ha, Hl.
  by rewrite (bool_decide_eq_true_2 _ Htext).
Qed.

Lemma minutes_run_snoc_eq st evs ev st' acts :
  minutes_run st evs = (st', acts) →
  minutes_run st (evs ++ [ev]) = ((minutes_step st' ev).1, acts ++ (minutes_step st' ev).2).
Proof. intros Hrun. by rewrite minutes_run_snoc, Hrun. Qed.

Lemma ticks_blank st totalSeconds (n : nat) :
  autoGenerate st = true → countdownIntervalRef st = Some totalSeconds →
  countdownSeconds st = totalSeconds → 1 < totalSeconds →
  shouldGenerateRef st = false → minutesLoading st = false →
  trim (transcriptText st) = [] → totalSeconds ≤ Z.of_nat n →
  minutes_run st (replicate n Tick)
  = (set_minutesLoading false
       (set_shouldGenerateRef true
          (setCountdownSeconds (totalSeconds - Z.of_nat n `mod` totalSeconds) st)), []).
Proof.
  intros Ha Hi Hc Ht Hf Hl Hblank Hn.
  pose proof (ticks_from_setup st totalSeconds n Ha Hi Hc Ht Hf Hl) as Hrun.
  cbv zeta in Hrun.
  assert (hasTranscriptText st = false) as Hhas.
  { unfold hasTranscriptText. by rewrite bool_decide_eq_false_2 by (by intros ?). }
  rewrite Hhas, (bool_decide_eq_true_2 (totalSeconds ≤ Z.of_nat n)) in Hrun by done.
  exact Hrun.
Qed.

(** X20. A fire that found no text is not lost: when a full cadence has
    passed on a transcript without text, the first transcript with text to
    arrive is generated from at once, without waiting for the next
    fire. *)
Theorem fire_waits_for_text st totalSeconds (n : nat) (text : jsstring) :
  autoGenerate st = true → countdownIntervalRef st = Some totalSeconds →
  countdownSeconds st = totalSeconds → 1 < totalSeconds →
  shouldGenerateRef st = false → minutesLoading st = false →
  trim (transcriptText st) = [] → totalSeconds ≤ Z.of_nat n → trim text ≠ [] →
  let waiting := minutes_run st (replicate n Tick) in
  let arrived := minutes_run st (replicate n Tick ++ [TranscriptChanged text]) in
  waiting.2 = [] ∧ shouldGenerateRef waiting.1 = true ∧
  arrived.2 = [CallGenerateMinutes text] ∧
  shouldGenerateRef arrived.1 = false ∧ minutesLoading arrived.1 = true.
Proof.
  intros Ha Hi Hc Ht Hf Hl Hblank Hn Htext. cbv zeta.
  pose proof (ticks_blank st totalSeconds n Ha Hi Hc Ht Hf Hl Hblank Hn) as Hrun.
  rewrite (minutes_run_snoc_eq _ _ (TranscriptChanged text) _ _ Hrun), Hrun.
  rewrite text_arrives_step; [done|done|exact Ha|done|exact Hblank|exact Htext].
Qed.

Lemma generationEffect_auto_off st :
  autoGenerate st = false → generationEffect st = (st, []).
Proof. intros Ha. unfold generationEffect. by rewrite Ha, andb_false_r. Qed.

(** X21. With auto-generation off nothing is generated unasked: over any
    sequence of events that holds no click on the generate button and does
    not switch auto-generation on, whatever the countdown, the fire flag
    and the transcript, no generation is called and the toast of the custom
    prompt is not raised; all that can happen is a toast of the status
    callback, for a call that completes meanwhile; and auto-generation
    stays off. *)
Theorem auto_generation_off_is_silent st (evs : list MinutesEvent) :
  autoGenerate st = false →
  ManualGeneration ∉ evs → SwitchAutoGenerate true ∉ evs →
  Forall (λ action, action = ToastGenerationSuccess ∨ action = ToastGenerationError)
         (minutes_run st evs).2 ∧
  autoGenerate (minutes_run st evs).1 = false.
Proof.
  intros Hoff. induction evs as [|ev evs IH] using rev_ind.
  { intros _ _. split; [constructor|done]. }
  intros [Hm Hev]%not_elem_of_app [Hs Hev']%not_elem_of_app.
  destruct (IH Hm Hs) as [Hacts Hauto]. rewrite minutes_run_snoc. cbn [fst snd].
  set (st' := (minutes_run st evs).1) in *.
  assert (autoGenerate (before_effects st' ev) = false ∧
          Forall (λ action, action = ToastGenerationSuccess ∨ action = ToastGenerationError)
                 (handle st' ev).2)
    as [Hauto' Hhandle].
  { unfold before_effects.
    assert (autoGenerate (handle st' ev).1 = false ∧
            Forall (λ action, action = ToastGenerationSuccess ∨ action = ToastGenerationError)
                   (handle st' ev).2) as [Ha Hh].
    { destruct ev as [| |status| |text|on|minutes|style|prompt].
      - split; [|constructor]. simpl. unfold intervalTick.
        destruct (countdownIntervalRef st'); [|done]. by destruct (bool_decide _).
      - split; [done|constructor].
      - split; [done|]. simpl. unfold statusCallback.
        destruct (bool_decide _); [by repeat constructor|].
        destruct (bool_decide _); by repeat constructor.
      - exfalso. apply Hev. left.
      - split; [done|constructor].
      - destruct on; [|split; [done|constructor]]. exfalso. apply Hev'. left.
      - split; [done|constructor].
      - split; [done|constructor].
      - split; [done|constructor]. }
    split; [|done]. destruct (bool_decide _); [|done].
    unfold countdownSetup. cbn. by rewrite Ha. }
  unfold minutes_step. fold (before_effects st' ev) in *.
  revert Hauto' Hhandle. unfold before_effects.
  destruct (handle st' ev) as [st1 acts1]. cbn [fst snd].
  generalize (if bool_decide (setup_deps st1 ≠ setup_deps st')
              then countdownSetup st1 else st1).
  intros st2 Hst2 Hacts1. destruct (bool_decide _).
  - rewrite generationEffect_auto_off by done. cbn [fst snd].
    rewrite app_nil_r. split; [by apply Forall_app|done].
  - cbn [fst snd]. rewrite app_nil_r. split; [by apply Forall_app|done].
Qed.
End scheduler_traces.

Lemma auto_generation_off_is_silent_witness :
  Forall (λ action, action = ToastGenerationSuccess ∨ action = ToastGenerationError)
    (minutes_run initial_minutes
       ([TranscriptChanged (js "hello"); SelectGenerationFrequency 1] ++ replicate 3 Tick
          ++ [StatusReported (js "success"); SwitchAutoGenerate false])).2.
Proof.
  apply auto_generation_off_is_silent; [done| |].
  - intros Hin. repeat (apply elem_of_cons in Hin as [Hin|Hin]; [discriminate|]).
    by apply elem_of_nil in Hin.
  - intros Hin. repeat (apply elem_of_cons in Hin as [Hin|Hin]; [discriminate|]).
    by apply elem_of_nil in Hin.
Defined.

Lemma countdown_period_witness :
  let st := (minutes_run initial_minutes warm_up).1 in
  countdownSeconds (minutes_run st (replicate 150 Tick)).1 = 30 ∧
  (minutes_run st (replicate 150 Tick)).2 = [CallGenerateMinutes (js "hello")].
Proof.
  intros st.
  destruct (countdown_period st 60 150) as (Hcount & Hcalls & _);
    [by vm_compute|by vm_compute|by vm_compute|lia|by vm_compute|by vm_compute|].
  split.
  - rewrite Hcount. by vm_compute.
  - rewrite Hcalls. by vm_compute.
Defined.

Lemma fire_waits_for_text_witness :
  let st := (minutes_run initial_minutes
               [SelectGenerationFrequency 1; SwitchAutoGenerate true]).1 in
  (minutes_run st (replicate 60 Tick ++ [TranscriptChanged (js "hello")])).2
  = [CallGenerateMinutes (js "hello")].
Proof.
  intros st.
  destruct (fire_waits_for_text st 60 60 (js "hello")) as (_ & _ & Hcalls & _);
    [by vm_compute|by vm_compute|by vm_compute|lia|by vm_compute|by vm_compute
    |by vm_compute|lia|by vm_compute|].
  exact Hcalls.
Defined.

(** ** Upserts *)

(** X11. Upserting the same segment twice is upserting it once: a segment
    delivered again changes nothing, whatever the collection holds. *)
Theorem updateTranscriptionSegments_idempotent
    (newSegment : TranscriptionSegment) (prev : list TranscriptionSegment) :
  updateTranscriptionSegments newSegment (updateTranscriptionSegments newSegment prev)
  = updateTranscriptionSegments newSegment prev.
Proof.
  destruct (list_find (λ seg, same_key seg newSegment) prev) as [[i old]|] eqn:Hfind.
  - destruct (upsert_existing _ _ _ _ Hfind) as [-> _].
    apply list_find_Some in Hfind as (Hi & Hkey & Hfirst).
    assert (i < length prev)%nat as Hlt by (by eapply lookup_lt_Some).
    assert (list_find (λ seg, same_key seg newSegment) (<[i:=newSegment]> prev)
            = Some (i, newSegment)) as Hfind'.
    { apply list_find_Some. split_and!.
      - by rewrite list_lookup_insert_eq.
      - done.
      - intros j y Hj Hji. rewrite list_lookup_insert_ne in Hj by lia.
        by apply (Hfirst j). }
    destruct (upsert_existing _ _ _ _ Hfind') as [-> _].
    by rewrite list_insert_insert_eq.
  - destruct (upsert_fresh _ _ Hfind) as [-> _].
    apply list_find_None in Hfind.
    assert (list_find (λ seg, same_key seg newSegment) (prev ++ [newSegment])
            = Some (length prev, newSegment)) as Hfind'.
    { apply list_find_Some. split_and!.
      - by rewrite lookup_app_r, Nat.sub_diag by lia.
      - done.
      - intros j y Hj Hji. rewrite lookup_app_l in Hj by lia.
        rewrite Forall_forall in Hfind. apply Hfind.
        by eapply list_elem_of_lookup_2. }
    destruct (upsert_existing _ _ _ _ Hfind') as [-> _].
    rewrite insert_app_r_alt, Nat.sub_diag by lia. done.
Qed.

Lemma cancel_stops_current_call_witness :
  let w := @run parse_text_object initial_world
             [Generate; Chunk 0 (text_object (js "<SYSTEM_PROMPT>Be"))] in
  let w' := @step parse_text_object (@step parse_text_object w Cancel)
              (Chunk 0 (text_object (js " kind"))) in
  generatedPrompt (hook w') = js "Be" ∧
  @step parse_text_object w' (Chunk 0 (text_object (js "!"))) = w'.
Proof.
  intros w w'.
  destruct (@cancel_stops_current_call parse_text_object w 0%nat
              {| rawOutput := js "<SYSTEM_PROMPT>Be"; returned := None |} 0%nat
              (text_object (js " kind")))
    as (Hprompt & _ & _ & _ & _ & _ & Hstop);
    [by vm_compute|done|by vm_compute|by vm_compute|].
  split; [|apply Hstop]. unfold w'. rewrite Hprompt. by vm_compute.
Defined.
